(** * A shallow embedding of the Ludo rules engine of [expense-tracker.py]

    The engine part of the file (class [Token], class [Player], class
    [Game]) is embedded function by function.  Python integers are [Z];
    indices into the roster and into a player's fleet are [nat]; the two
    module-level dictionaries are [gmap]s and the set of safe squares is a
    [gset].  A Python exception ([KeyError] on a dictionary, [IndexError]
    on a list, [ValueError] of [int], a failed [assert]) is [None] in the
    option monad. *)

From stdpp Require Import base numbers option list gmap.

Local Open Scope Z_scope.

(** ** Constants (lines 104-122) *)

Definition OUTER_TRACK : Z := 52.
Definition HOME_STRETCH : Z := 6.
Definition TOKENS_PER_PLAYER : nat := 4.
Definition SAFE_SQUARES : gset Z := {[0; 8; 13; 21; 26; 34; 39; 47]}.

Definition START_SQUARE : gmap nat Z :=
  {[ 0%nat := 0; 1%nat := 13; 2%nat := 26; 3%nat := 39 ]}.

(** [{p: (START_SQUARE[p] - 1) % OUTER_TRACK for p in START_SQUARE}];
    Python's [%] with a positive modulus is [Z.modulo]. *)
Definition HOME_ENTRY : gmap nat Z :=
  (λ s, (s - 1) `mod` OUTER_TRACK) <$> START_SQUARE.

(** ** class Token, class Player (lines 131-173)

    The display-only fields of a player ([name], [color]) take no part in
    the rules and are left out. *)

Record Token := mkToken {
  player_idx : nat;
  token_idx : nat;
  position : Z;
  finished : bool
}.

Record Player := mkPlayer {
  idx : nat;
  tokens : list Token;
  is_cpu : bool
}.

Definition Token_init (p i : nat) : Token := mkToken p i (-1) false.

Definition is_in_yard (t : Token) : bool := bool_decide (position t = -1).

Definition is_on_board (t : Token) : bool :=
  bool_decide (position t >= 0) && negb (finished t).

Definition set_position (t : Token) (pos : Z) : Token :=
  mkToken (player_idx t) (token_idx t) pos (finished t).

Definition set_finished (t : Token) : Token :=
  mkToken (player_idx t) (token_idx t) (position t) true.

Definition Player_init (i : nat) (cpu : bool) : Player :=
  mkPlayer i (Token_init i <$> seq 0 TOKENS_PER_PLAYER) cpu.

Definition set_tokens (pl : Player) (ts : list Token) : Player :=
  mkPlayer (idx pl) ts (is_cpu pl).

Definition tokens_finished (pl : Player) : list Token :=
  filter (λ t, finished t = true) (tokens pl).

Definition all_finished (pl : Player) : bool :=
  bool_decide (length (tokens_finished pl) = TOKENS_PER_PLAYER).

(** ** class Game: state and constructor (lines 176-184)

    [winner_order] is a Python list of [Player] objects compared by
    identity; a player object is identified here by its place in the
    roster. *)

Record Game := mkGame {
  num_players : nat;
  players : list Player;
  turn : nat;
  winner_order : list nat
}.

Definition set_players (g : Game) (ps : list Player) : Game :=
  mkGame (num_players g) ps (turn g) (winner_order g).

Definition set_turn (g : Game) (t : nat) : Game :=
  mkGame (num_players g) (players g) t (winner_order g).

Definition append_winner (g : Game) (p : nat) : Game :=
  mkGame (num_players g) (players g) (turn g) (winner_order g ++ [p]).

(** [cpu_players[i] for i in range(num_players)]: an [IndexError] when the
    list is too short. *)
Definition Game_init (n : nat) (cpu_players : option (list bool)) : option Game :=
  if decide (2 ≤ n ≤ 4)%nat then
    let cpus := default (replicate n false) cpu_players in
    ps ← mapM (λ i, Player_init i <$> cpus !! i) (seq 0 n);
    Some (mkGame n ps 0 [])
  else None.

(** ** Board geometry (lines 199-216) *)

Definition position_is_safe (pos : Z) (player_idx : option nat) : option bool :=
  if decide (pos < 0 ∨ pos >= OUTER_TRACK) then Some false
  else if decide (pos ∈ SAFE_SQUARES) then Some true
  else match player_idx with
       | Some p => s ← START_SQUARE !! p; Some (bool_decide (pos = s))
       | None => Some false
       end.

Definition local_distance_to_home_entry (player_idx : nat) (pos : Z) : option Z :=
  if decide (pos < 0 ∨ pos >= OUTER_TRACK) then Some 0
  else
    entry ← HOME_ENTRY !! player_idx;
    if decide (pos <= entry) then Some (entry - pos)
    else Some (OUTER_TRACK - (pos - entry)).

(** ** Legality of a move (lines 218-236) *)

Definition can_move_token (player : Player) (token : Token) (roll : Z) : option bool :=
  if finished token then Some false
  else if is_in_yard token then Some (bool_decide (roll = 6))
  else if decide (0 <= position token < OUTER_TRACK) then
    steps_to_entry ← local_distance_to_home_entry (idx player) (position token);
    if decide (roll <= steps_to_entry) then Some true
    else
      let over := roll - steps_to_entry - 1 in
      Some (bool_decide (over < HOME_STRETCH))
  else if decide (position token >= OUTER_TRACK) then
    let rel := position token - OUTER_TRACK in
    Some (bool_decide (rel + roll < HOME_STRETCH))
  else Some false.

(** ** Capture resolution (lines 281-296)

    The two nested loops visit every token of every player whose [idx]
    differs from the mover's; a visited token is reset to the yard when it
    is on the board at [pos].  [pos] is read once, before the loops. *)

Definition capture_token (pos : Z) (tok : Token) : Token :=
  if is_on_board tok && bool_decide (position tok = pos)
  then set_position tok (-1) else tok.

Definition capture_player (mover : nat) (pos : Z) (pl : Player) : Player :=
  if decide (idx pl = mover) then pl
  else set_tokens pl (capture_token pos <$> tokens pl).

Definition capture_all (mover : nat) (pos : Z) (g : Game) : Game :=
  set_players g (capture_player mover pos <$> players g).

Definition handle_capture (g : Game) (player : Player) (moved_token : Token)
  : option Game :=
  let pos := position moved_token in
  if decide (pos < 0 ∨ pos >= OUTER_TRACK) then Some g
  else
    safe ← position_is_safe pos (Some (idx player));
    if (safe : bool) then Some g
    else Some (capture_all (idx player) pos g).

(** ** Move application (lines 238-279)

    [player] and [token] are object references in the source; here they are
    the place [pi] of the player in the roster and the place [ti] of the
    token in that player's fleet, and the mutation of the token object is
    a write at that place. *)

Definition store_token (g : Game) (pi ti : nat) (t : Token) : Game :=
  set_players g
    (alter (λ pl, set_tokens pl (<[ti := t]> (tokens pl))) pi (players g)).

Definition move_token (g : Game) (pi ti : nat) (roll : Z) : option Game :=
  player ← players g !! pi;
  token ← tokens player !! ti;
  if is_in_yard token then
    s ← START_SQUARE !! idx player;
    let token' := set_position token s in
    handle_capture (store_token g pi ti token') player token'
  else if decide (0 <= position token < OUTER_TRACK) then
    steps_to_entry ← local_distance_to_home_entry (idx player) (position token);
    if decide (roll <= steps_to_entry) then
      let new_pos := (position token + roll) `mod` OUTER_TRACK in
      let token' := set_position token new_pos in
      handle_capture (store_token g pi ti token') player token'
    else
      let over := roll - steps_to_entry - 1 in
      let token' := set_position token (OUTER_TRACK + over) in
      if decide (position token' - OUTER_TRACK = HOME_STRETCH - 1)
      then Some (store_token g pi ti (set_finished token'))
      else Some (store_token g pi ti token')
  else if decide (position token >= OUTER_TRACK) then
    let rel := position token - OUTER_TRACK in
    let new_rel := rel + roll in
    if decide (new_rel = HOME_STRETCH - 1) then
      Some (store_token g pi ti
              (set_finished (set_position token (OUTER_TRACK + new_rel))))
    else if decide (new_rel < HOME_STRETCH - 1) then
      Some (store_token g pi ti (set_position token (OUTER_TRACK + new_rel)))
    else Some g
  else Some g.

Definition get_token (g : Game) (pi ti : nat) : option Token :=
  pl ← players g !! pi; tokens pl !! ti.

(** ** Choosing a token (lines 298-363) *)

Fixpoint any_moves_available_in (player : Player) (roll : Z) (ts : list Token)
  : option bool :=
  match ts with
  | [] => Some false
  | tok :: ts' =>
      b ← can_move_token player tok roll;
      if (b : bool) then Some true else any_moves_available_in player roll ts'
  end.

Definition any_moves_available (player : Player) (roll : Z) : option bool :=
  any_moves_available_in player roll (tokens player).

(** [[t for t in player.tokens if self.can_move_token(player, t, roll)]],
    each token paired with its place in the fleet. *)
Fixpoint movable_from (player : Player) (roll : Z) (i : nat) (ts : list Token)
  : option (list (nat * Token)) :=
  match ts with
  | [] => Some []
  | t :: ts' =>
      b ← can_move_token player t roll;
      rest ← movable_from player roll (S i) ts';
      Some (if (b : bool) then (i, t) :: rest else rest)
  end.

Definition movable_tokens (player : Player) (roll : Z)
  : option (list (nat * Token)) :=
  movable_from player roll 0 (tokens player).

(** Step 1 of the CPU heuristic (lines 311-313). *)
Definition finishes_in_stretch (roll : Z) (t : Token) : bool :=
  bool_decide (position t >= OUTER_TRACK)
  && bool_decide ((position t - OUTER_TRACK) + roll = HOME_STRETCH - 1).

(** Step 2 (lines 315-332): the previewed destination and the search for an
    opposing token standing on it. *)
Definition preview_dest (player : Player) (t : Token) (roll : Z) : option Z :=
  if is_in_yard t then START_SQUARE !! idx player
  else if decide (0 <= position t < OUTER_TRACK) then
    steps_to_entry ← local_distance_to_home_entry (idx player) (position t);
    if decide (roll <= steps_to_entry)
    then Some ((position t + roll) `mod` OUTER_TRACK)
    else Some (OUTER_TRACK + (roll - steps_to_entry - 1))
  else Some (position t + roll).

Definition opponent_on (ps : list Player) (mover : nat) (dest : Z) : bool :=
  existsb (λ pl,
    if decide (idx pl = mover) then false
    else existsb (λ tok, is_on_board tok && bool_decide (position tok = dest))
           (tokens pl)) ps.

Fixpoint first_capturing (g : Game) (player : Player) (roll : Z)
    (movable : list (nat * Token)) : option (option nat) :=
  match movable with
  | [] => Some None
  | (i, t) :: rest =>
      dest ← preview_dest player t roll;
      hit ← (if decide (dest < OUTER_TRACK) then
               safe ← position_is_safe dest (Some (idx player));
               Some (negb safe && opponent_on (players g) (idx player) dest)
             else Some false);
      if (hit : bool) then Some (Some i) else first_capturing g player roll rest
  end.

(** Step 4 (line 338): [list.sort] is stable, also with [reverse=True], so
    the sorted list is the stable insertion sort by decreasing key. *)
Definition progress_key (x : nat * Token) : Z :=
  if decide (position x.2 >= 0) then position x.2 else -1.

Fixpoint insert_desc (x : nat * Token) (l : list (nat * Token))
  : list (nat * Token) :=
  match l with
  | [] => [x]
  | y :: l' =>
      if decide (progress_key y > progress_key x)
      then y :: insert_desc x l' else x :: y :: l'
  end.

Definition sort_desc (l : list (nat * Token)) : list (nat * Token) :=
  foldr insert_desc [] l.

Definition cpu_select (g : Game) (player : Player) (roll : Z)
    (movable : list (nat * Token)) : option (option nat) :=
  match find (λ x, finishes_in_stretch roll x.2) movable with
  | Some x => Some (Some x.1)
  | None =>
      cap ← first_capturing g player roll movable;
      match cap with
      | Some i => Some (Some i)
      | None =>
          match find (λ x, is_in_yard x.2) movable with
          | Some x => Some (Some x.1)
          | None => x ← head (sort_desc movable); Some (Some x.1)
          end
      end
  end.

(** What the human typed at one prompt, by the tests the loop applies to the
    line in turn:
    - [EPass]: [choice.strip().lower() == 'p'] (line 350);
    - [EOther]: not a pass, and [choice.isdigit()] is false (line 352);
    - [ENumber ci]: [isdigit()] holds and [int(choice)] is [ci];
    - [ENotDecimal]: [isdigit()] holds and [int(choice)] raises
      [ValueError] (line 355).  [str.isdigit] accepts every character of
      Unicode type digit, [int] only the decimal ones: a superscript two is
      such a line. *)
Inductive Entry := EPass | ENumber (ci : nat) | ENotDecimal | EOther.

(** The prompt loop (lines 348-363).  It returns only on a pass or on a legal
    token.  [None] is a run that does not return: the [ValueError] of
    [int(choice)], or the typed entries running out. *)
Fixpoint human_select (player : Player) (roll : Z) (entries : list Entry)
  : option (option nat) :=
  match entries with
  | [] => None
  | EPass :: _ => Some None
  | EOther :: rest => human_select player roll rest
  | ENotDecimal :: _ => None
  | ENumber ci :: rest =>
      if decide (ci < 0 ∨ TOKENS_PER_PLAYER ≤ ci)%nat
      then human_select player roll rest
      else
        tok ← tokens player !! ci;
        ok ← can_move_token player tok roll;
        if (ok : bool) then Some (Some ci) else human_select player roll rest
  end.

(** The result is the place of the chosen token in the fleet, or [None]
    for Python's [None]. *)
Definition select_token_for_move (g : Game) (player : Player) (roll : Z)
    (entries : list Entry) : option (option nat) :=
  movable ← movable_tokens player roll;
  match movable with
  | [] => Some None
  | _ :: _ =>
      if is_cpu player then cpu_select g player roll movable
      else
        (* the status listing calls [can_move_token] on every token *)
        _ ← mapM (λ t, can_move_token player t roll) (tokens player);
        human_select player roll entries
  end.

(** ** The turn loop (lines 382-429)

    The die and the keyboard are the environment: each turn that rolls
    consumes one [TurnInput], the value of the die ([random.randint(1, 6)])
    and what the human types at the prompt of that turn. *)

Record TurnInput := mkInput { die : Z; typed : list Entry }.

(** [self.turn = (self.turn + 1) % self.num_players] *)
Definition advance_turn (g : Game) : option Game :=
  if decide (num_players g = 0%nat) then None
  else Some (set_turn g ((turn g + 1) `mod` num_players g)%nat).

Definition record_if_finished (g : Game) (pi : nat) (player : Player) : Game :=
  if all_finished player && bool_decide (pi ∉ winner_order g)
  then append_winner g pi else g.

(** Lines 396-424: one rolled turn of the player at the cursor. *)
Definition take_turn (g : Game) (player : Player) (inp : TurnInput)
  : option Game :=
  let roll := die inp in
  avail ← any_moves_available player roll;
  '(g', extra_turn) ←
    (if negb avail then Some (g, bool_decide (roll = 6))
     else
       tok ← select_token_for_move g player roll (typed inp);
       match tok with
       | None => Some (g, false)
       | Some ti =>
           g1 ← move_token g (turn g) ti roll;
           player' ← players g1 !! turn g;
           Some (record_if_finished g1 (turn g) player', bool_decide (roll = 6))
       end);
  if (extra_turn : bool) then Some g' else advance_turn g'.

(** Lines 386-424: the body of the [while] loop. *)
Definition play_iteration (g : Game) (ins : list TurnInput)
  : option (Game * list TurnInput) :=
  player ← players g !! turn g;
  if all_finished player then
    let g1 := if decide (turn g ∈ winner_order g) then g
              else append_winner g (turn g) in
    g2 ← advance_turn g1;
    Some (g2, ins)
  else
    match ins with
    | [] => None
    | inp :: ins' => g' ← take_turn g player inp; Some (g', ins')
    end.

Definition loop_cond (g : Game) : bool :=
  bool_decide (Z.of_nat (length (winner_order g)) < Z.of_nat (num_players g) - 1).

(** [fuel] bounds the number of iterations; [None] is a run that has not
    returned (an exception, no input left, or no fuel left). *)
Fixpoint play_loop (fuel : nat) (g : Game) (ins : list TurnInput) : option Game :=
  if loop_cond g then
    match fuel with
    | O => None
    | S fuel' =>
        '(g', ins') ← play_iteration g ins;
        play_loop fuel' g' ins'
    end
  else Some g.

(** Lines 427-429. *)
Definition append_remaining (g : Game) : Game :=
  foldl (λ g p, if decide (p ∈ winner_order g) then g else append_winner g p)
        g (seq 0 (length (players g))).

Definition play (fuel : nat) (g : Game) (ins : list TurnInput) : option Game :=
  append_remaining <$> play_loop fuel g ins.

(** ** The rules as the specification words them

    Section 3 and section 4.1 of the specification, transcribed: the start
    coordinates are evenly spaced by [TRACK_LENGTH / 4], the entry is the
    square before the start, and [canAdvance] has one case per coordinate
    range. *)

Module Spec.

Definition TRACK_LENGTH : Z := 52.
Definition STRETCH_LENGTH : Z := 6.
Definition YARD : Z := -1.

Definition start (p : nat) : Z := Z.of_nat p * (TRACK_LENGTH / 4).
Definition entry (p : nat) : Z := (start p - 1) `mod` TRACK_LENGTH.

Definition on_track (pos : Z) : Prop := 0 <= pos < TRACK_LENGTH.
Definition in_stretch (pos : Z) : Prop :=
  TRACK_LENGTH <= pos < TRACK_LENGTH + STRETCH_LENGTH.
Definition valid_coordinate (pos : Z) : Prop :=
  pos = YARD ∨ on_track pos ∨ in_stretch pos.

Definition distanceToEntry (p : nat) (pos : Z) : Z :=
  if decide (on_track pos) then
    if decide (pos <= entry p) then entry p - pos
    else TRACK_LENGTH - (pos - entry p)
  else 0.

Definition canAdvance (p : nat) (tok_pos : Z) (tok_finished : bool) (roll : Z)
  : bool :=
  if tok_finished then false
  else if decide (tok_pos = YARD) then bool_decide (roll = 6)
  else if decide (on_track tok_pos) then
    bool_decide (roll <= distanceToEntry p tok_pos)
    || bool_decide (roll - distanceToEntry p tok_pos - 1 < STRETCH_LENGTH)
  else if decide (in_stretch tok_pos) then
    bool_decide ((tok_pos - TRACK_LENGTH) + roll < STRETCH_LENGTH)
  else false.

End Spec.

(** ** Invariants of the data model *)

Definition final_index : Z := OUTER_TRACK + HOME_STRETCH - 1.

(** Section 3 of the specification: finished implies the final stretch
    index, yard implies not finished. *)
Definition token_inv (t : Token) : Prop :=
  (finished t = true → position t = final_index)
  ∧ (position t = -1 → finished t = false).

(** The tokens that play can produce: a coordinate of the data model, and
    finished exactly on the final index. *)
Definition token_ok (t : Token) : Prop :=
  -1 <= position t <= final_index
  ∧ (finished t = true ↔ position t = final_index).

Definition Forall_tokens (P : Token → Prop) (g : Game) : Prop :=
  Forall (λ pl, Forall P (tokens pl)) (players g).

Definition valid_roster (g : Game) : Prop :=
  Forall (λ pl, (idx pl < 4)%nat) (players g).

(** The new value of the moved token alone, and whether [move_token] goes
    on to [handle_capture]: the token-local part of [move_token], used to
    reason about it (see [move_token_factor]). *)
Definition token_after_move (player : Player) (token : Token) (roll : Z)
  : option (Token * bool) :=
  if is_in_yard token then
    s ← START_SQUARE !! idx player; Some (set_position token s, true)
  else if decide (0 <= position token < OUTER_TRACK) then
    steps_to_entry ← local_distance_to_home_entry (idx player) (position token);
    if decide (roll <= steps_to_entry) then
      Some (set_position token ((position token + roll) `mod` OUTER_TRACK), true)
    else
      let token' := set_position token (OUTER_TRACK + (roll - steps_to_entry - 1)) in
      Some (if decide (position token' - OUTER_TRACK = HOME_STRETCH - 1)
            then set_finished token' else token', false)
  else if decide (position token >= OUTER_TRACK) then
    let new_rel := position token - OUTER_TRACK + roll in
    if decide (new_rel = HOME_STRETCH - 1) then
      Some (set_finished (set_position token (OUTER_TRACK + new_rel)), false)
    else if decide (new_rel < HOME_STRETCH - 1) then
      Some (set_position token (OUTER_TRACK + new_rel), false)
    else Some (token, false)
  else Some (token, false).

(** Whether the move really sends opposing tokens home: [handle_capture]
    is reached and does not return early. *)
Definition captures (player : Player) (token' : Token) (check : bool) : bool :=
  check
  && bool_decide (position_is_safe (position token') (Some (idx player)) = Some false).

(** A sequence of legal moves with die values: any player, any token the
    legality check admits.  The turn loop only ever makes such moves. *)
Inductive legal_moves : Game → Game → Prop :=
| legal_moves_refl (g : Game) : legal_moves g g
| legal_moves_step (g g1 g2 : Game) (pi ti : nat) (roll : Z)
    (player : Player) (token : Token) :
    legal_moves g g1 →
    players g1 !! pi = Some player → tokens player !! ti = Some token →
    1 <= roll <= 6 →
    can_move_token player token roll = Some true →
    move_token g1 pi ti roll = Some g2 →
    legal_moves g g2.

Definition reachable (g : Game) : Prop :=
  ∃ n cpus g0, Game_init n cpus = Some g0 ∧ legal_moves g0 g.

Definition game_inv (g : Game) : Prop :=
  valid_roster g ∧ Forall_tokens token_ok g.

(** A script of moves, each checked for legality before it is applied. *)
Fixpoint run_moves (ms : list (nat * nat * Z)) (g : Game) : option Game :=
  match ms with
  | [] => Some g
  | (pi, ti, roll) :: ms' =>
      player ← players g !! pi;
      token ← tokens player !! ti;
      legal ← can_move_token player token roll;
      if (legal : bool) && bool_decide (1 <= roll <= 6)
      then g' ← move_token g pi ti roll; run_moves ms' g'
      else None
  end.

(** The states the turn loop passes through: [play_reaches (g, ins) (g', ins')]
    when some number of iterations, each entered with the loop condition
    true, leads from [g] with pending input [ins] to [g'] with [ins']. *)
Inductive play_reaches : Game * list TurnInput → Game * list TurnInput → Prop :=
| play_reaches_refl (s : Game * list TurnInput) : play_reaches s s
| play_reaches_step (g g1 : Game) (ins ins1 : list TurnInput)
    (s2 : Game * list TurnInput) :
    loop_cond g = true →
    play_iteration g ins = Some (g1, ins1) →
    play_reaches (g1, ins1) s2 →
    play_reaches (g, ins) s2.

(** What the loop keeps true of the cursor and of the ranking list. *)
Definition ranking_inv (g : Game) : Prop :=
  length (players g) = num_players g
  ∧ (turn g < num_players g)%nat
  ∧ NoDup (winner_order g)
  ∧ Forall (λ p, (p < num_players g)%nat) (winner_order g)
  ∧ (length (winner_order g) ≤ num_players g - 1)%nat.

(** ** Example states *)

Definition example_token (p i : nat) (pos : Z) : Token := mkToken p i pos false.

(** Player 0 has a token on square 1; two tokens of player 1 stand together
    on the unsafe square 5, one on the safe square 8, one in its stretch. *)
Definition capture_mover : Player :=
  mkPlayer 0 [example_token 0 0 1; example_token 0 1 (-1);
              example_token 0 2 5; example_token 0 3 4] true.

Definition capture_opponent : Player :=
  mkPlayer 1 [example_token 1 0 5; example_token 1 1 5;
              example_token 1 2 8; example_token 1 3 53] true.

Definition capture_state : Game :=
  mkGame 2 [capture_mover; capture_opponent] 0 [].

Definition capture_state_after_4 : Game :=
  default capture_state (move_token capture_state 0 0 4).

Definition capture_state_after_safe : Game :=
  default capture_state (move_token capture_state 0 3 4).

(** Player 0 of a fresh two-player game brings token 0 out and walks it
    to stretch index 2, three steps before the final index. *)
Definition near_finish_script : list (nat * nat * Z) :=
  (λ r, (0%nat, 0%nat, r)) <$> replicate 10 6.

Definition near_finish : Game :=
  default capture_state (Game_init 2 None ≫= run_moves near_finish_script).

(** A whole game of two automated players: player 0 rolls forty sixes,
    which bring its four tokens out and walk each to stretch index 2, then
    four threes that finish them, player 1 rolling a one in between. *)
Definition full_game_start : Game :=
  default capture_state (Game_init 2 (Some [true; true])).

Definition full_game_inputs : list TurnInput :=
  (λ r, mkInput r []) <$> (replicate 40 6 ++ [3; 1; 3; 1; 3; 1; 3]).

Definition full_game_end : Game :=
  default capture_state (play 60 full_game_start full_game_inputs).

(** The same two players in a game that the second one wins: player 0
    opens with a one, which moves nothing, and the forty sixes and the four
    threes are player 1's. *)
Definition second_wins_inputs : list TurnInput :=
  (λ r, mkInput r []) <$> (1 :: replicate 40 6 ++ [3; 1; 3; 1; 3; 1; 3]).

Definition second_wins_end : Game :=
  default capture_state (play 60 full_game_start second_wins_inputs).

(** A fresh game of two human players. *)
Definition human_start : Game :=
  default capture_state (Game_init 2 None).

(** Player 1 brings token 0 out and walks it to square 7; player 0 walks
    token 0 to its entry square 51 and token 1 to square 1.  Every move is
    legal for a die value. *)
Definition cpu_dilemma_script : list (nat * nat * Z) :=
  ((λ r, (1%nat, 0%nat, r)) <$> replicate 8 6 ++ [4])
  ++ ((λ r, (0%nat, 0%nat, r)) <$> replicate 9 6 ++ [3])
  ++ [(0%nat, 1%nat, 6); (0%nat, 1%nat, 1)].

Definition cpu_dilemma : Game :=
  default capture_state
    (Game_init 2 (Some [true; true]) ≫= run_moves cpu_dilemma_script).

Definition cpu_dilemma_player : Player :=
  mkPlayer 0 [example_token 0 0 51; example_token 0 1 1;
              example_token 0 2 (-1); example_token 0 3 (-1)] true.

(** ** The remaining queries of class Player (lines 160-164) *)

Definition tokens_in_play (pl : Player) : list Token :=
  filter (λ t, is_in_yard t = false ∧ finished t = false) (tokens pl).

Definition tokens_in_yard (pl : Player) : list Token :=
  filter (λ t, is_in_yard t = true) (tokens pl).

(** What a move must not touch: who sits where in the roster, who is
    automated, and how many tokens each player owns. *)
Definition roster_shape (g : Game) : list (nat * bool * nat) :=
  (λ pl, (idx pl, is_cpu pl, length (tokens pl))) <$> players g.

(** The place of a coordinate on the route of the player whose start square
    is [s]: 0 on the start square, 51 on the entry square, 52..57 in the
    stretch. *)
Definition route_index (s pos : Z) : Z :=
  if decide (0 <= pos < OUTER_TRACK) then (pos - s) `mod` OUTER_TRACK else pos.

(** No two tokens of players with different [idx] stand together on a track
    square outside [SAFE_SQUARES]. *)
Definition no_shared_unsafe (g : Game) : Prop :=
  ∀ pj pk plj plk tj tk a b,
    players g !! pj = Some plj → players g !! pk = Some plk →
    tokens plj !! tj = Some a → tokens plk !! tk = Some b →
    idx plj ≠ idx plk →
    0 <= position a < OUTER_TRACK → position b = position a →
    position a ∈ SAFE_SQUARES.

(** Every player owns a full fleet, as the constructor makes it. *)
Definition full_fleets (g : Game) : Prop :=
  Forall (λ pl, length (tokens pl) = TOKENS_PER_PLAYER) (players g).

(** The die shows 1..6 ([random.randint(1, 6)]). *)
Definition valid_dice (ins : list TurnInput) : Prop :=
  Forall (λ inp, 1 <= die inp <= 6) ins.

Definition full_game_loop_end : Game :=
  default capture_state (play_loop 60 full_game_start full_game_inputs).

(** ** Setup (lines 436-466)

    [prompt_setup] reads lines of the keyboard.  A line is kept as what the
    two prompts make of it: for the player count, blank after [strip], a
    string of decimal digits with its value, a string that [isdigit]
    accepts and [int] rejects, or anything else; for the automation flag,
    blank after [strip], one of y/yes, one of n/no after [lower], or
    anything else. *)

Inductive CountLine :=
| CountBlank | CountDigits (v : nat) | CountNotDecimal | CountOther.

Inductive FlagLine := FlagBlank | FlagYes | FlagNo | FlagOther.

Record Line := mkLine { as_count : CountLine; as_flag : FlagLine }.

(** Lines 438-449; [None] is the [ValueError] of [int], or a prompt that
    never got its answer. *)
Fixpoint prompt_count (lines : list Line) : option (nat * list Line) :=
  match lines with
  | [] => None
  | l :: rest =>
      match as_count l with
      | CountBlank => Some (4%nat, rest)
      | CountOther => prompt_count rest
      | CountNotDecimal => None
      | CountDigits n =>
          if decide (2 ≤ n ≤ 4)%nat then Some (n, rest) else prompt_count rest
      end
  end.

(** Lines 454-465, the prompt for one player. *)
Fixpoint prompt_flag (lines : list Line) : option (bool * list Line) :=
  match lines with
  | [] => None
  | l :: rest =>
      match as_flag l with
      | FlagBlank => Some (false, rest)
      | FlagYes => Some (true, rest)
      | FlagNo => Some (false, rest)
      | FlagOther => prompt_flag rest
      end
  end.

(** Lines 452-465, [for i in range(num_players)] with [cpu_players.append]. *)
Fixpoint prompt_flags (k : nat) (cpu_players : list bool) (lines : list Line)
  : option (list bool * list Line) :=
  match k with
  | O => Some (cpu_players, lines)
  | S k' =>
      '(c, rest) ← prompt_flag lines;
      prompt_flags k' (cpu_players ++ [c]) rest
  end.

Definition prompt_setup (lines : list Line)
  : option (nat * list bool * list Line) :=
  '(num_players, rest) ← prompt_count lines;
  '(cpu_players, rest') ← prompt_flags num_players [] rest;
  Some (num_players, cpu_players, rest').

(** * Board geometry *)

Lemma START_SQUARE_lookup (p : nat) :
  START_SQUARE !! p =
    match p with
    | 0%nat => Some 0 | 1%nat => Some 13 | 2%nat => Some 26 | 3%nat => Some 39
    | _ => None
    end.
Proof.
  unfold START_SQUARE.
  do 4 (destruct p as [|p]; [reflexivity|]).
  rewrite !lookup_insert_ne by lia. by apply lookup_singleton_ne.
Qed.

Lemma START_SQUARE_Some (p : nat) (s : Z) :
  START_SQUARE !! p = Some s → (p < 4)%nat ∧ s = Spec.start p.
Proof.
  rewrite START_SQUARE_lookup.
  do 4 (destruct p as [|p]; [intros [= <-]; split; [lia|reflexivity]|]).
  discriminate.
Qed.

Lemma START_SQUARE_valid (p : nat) :
  (p < 4)%nat → START_SQUARE !! p = Some (Spec.start p).
Proof.
  intros Hp. rewrite START_SQUARE_lookup.
  do 4 (destruct p as [|p]; [reflexivity|]). lia.
Qed.

Lemma HOME_ENTRY_valid (p : nat) :
  (p < 4)%nat → HOME_ENTRY !! p = Some (Spec.entry p).
Proof.
  intros Hp. unfold HOME_ENTRY.
  by rewrite lookup_fmap, START_SQUARE_valid.
Qed.

Lemma start_in_SAFE_SQUARES (p : nat) :
  (p < 4)%nat → Spec.start p ∈ SAFE_SQUARES.
Proof.
  intros Hp. do 4 (destruct p as [|p]; [vm_compute; set_solver|]). lia.
Qed.

Lemma start_on_track (p : nat) :
  (p < 4)%nat → 0 <= Spec.start p < OUTER_TRACK.
Proof.
  intros Hp. unfold Spec.start, OUTER_TRACK.
  change (Spec.TRACK_LENGTH / 4) with 13. lia.
Qed.

Lemma entry_range (p : nat) : 0 <= Spec.entry p < OUTER_TRACK.
Proof. apply Z.mod_pos_bound. reflexivity. Qed.

Lemma local_distance_valid (p : nat) (pos : Z) :
  (p < 4)%nat →
  local_distance_to_home_entry p pos = Some (Spec.distanceToEntry p pos).
Proof.
  intros Hp. unfold local_distance_to_home_entry, Spec.distanceToEntry.
  unfold Spec.on_track, OUTER_TRACK, Spec.TRACK_LENGTH.
  rewrite HOME_ENTRY_valid by done. simpl.
  repeat case_decide; try lia; reflexivity.
Qed.

Example can_move_yard_6 :
  can_move_token (Player_init 0 false) (Token_init 0 0) 6 = Some true.
Proof. reflexivity. Qed.

Example dist_wraps :
  local_distance_to_home_entry 1 20 = Some 44.
Proof. vm_compute. reflexivity. Qed.

Lemma distanceToEntry_range (p : nat) (pos : Z) :
  0 <= Spec.distanceToEntry p pos < OUTER_TRACK.
Proof.
  unfold Spec.distanceToEntry, Spec.on_track.
  pose proof (entry_range p). unfold OUTER_TRACK, Spec.TRACK_LENGTH in *.
  repeat case_decide; lia.
Qed.

(** C6: the distance to the entry is the plain difference up to the entry,
    wraps around the track past it, and is zero off the track. *)
Theorem local_distance_to_home_entry_circular (p : nat) (s pos : Z) :
  START_SQUARE !! p = Some s →
  let entry := (s - 1) `mod` OUTER_TRACK in
  (0 <= pos < OUTER_TRACK → pos <= entry →
     local_distance_to_home_entry p pos = Some (entry - pos))
  ∧ (0 <= pos < OUTER_TRACK → entry < pos →
     local_distance_to_home_entry p pos = Some (OUTER_TRACK - (pos - entry))
     ∧ 0 < OUTER_TRACK - (pos - entry) < OUTER_TRACK)
  ∧ (¬ (0 <= pos < OUTER_TRACK) →
     local_distance_to_home_entry p pos = Some 0).
Proof.
  intros Hs entry.
  assert (HOME_ENTRY !! p = Some entry) as He.
  { unfold HOME_ENTRY. by rewrite lookup_fmap, Hs. }
  assert (0 <= entry < OUTER_TRACK) as Hr by (apply Z.mod_pos_bound; reflexivity).
  unfold local_distance_to_home_entry. rewrite He. simpl.
  repeat split; intros; repeat case_decide; try lia; reflexivity.
Qed.

Lemma local_distance_to_home_entry_circular_witness :
  local_distance_to_home_entry 1 20 = Some (52 - (20 - 12))
  ∧ local_distance_to_home_entry 1 5 = Some (12 - 5).
Proof.
  pose proof (local_distance_to_home_entry_circular 1 13 20 eq_refl) as (_ & H1 & _).
  pose proof (local_distance_to_home_entry_circular 1 13 5 eq_refl) as (H2 & _).
  split.
  - apply H1; vm_compute; split; congruence.
  - apply H2; vm_compute; try split; congruence.
Defined.

(** C5: on the coordinates of the data model, [can_move_token] is the
    [canAdvance] of the specification. *)
Theorem can_move_token_is_canAdvance (player : Player) (token : Token) (roll : Z) :
  (idx player < 4)%nat →
  1 <= roll <= 6 →
  Spec.valid_coordinate (position token) →
  can_move_token player token roll =
    Some (Spec.canAdvance (idx player) (position token) (finished token) roll).
Proof.
  intros Hp Hroll Hpos.
  unfold can_move_token, Spec.canAdvance, is_in_yard.
  destruct (finished token); [reflexivity|].
  unfold Spec.valid_coordinate, Spec.YARD, Spec.on_track, Spec.in_stretch,
    Spec.TRACK_LENGTH, Spec.STRETCH_LENGTH, OUTER_TRACK, HOME_STRETCH in *.
  destruct (decide (position token = -1)) as [Hy|Hy].
  { by rewrite bool_decide_true. }
  rewrite bool_decide_false by done.
  destruct (decide (0 <= position token < 52)) as [Ht|Ht].
  - rewrite (local_distance_valid _ _ Hp). simpl.
    destruct (decide (roll <= _)) as [Hr|Hr].
    + by rewrite bool_decide_true.
    + by rewrite (bool_decide_false (roll <= _)).
  - rewrite !decide_True by lia. reflexivity.
Qed.

Lemma can_move_token_is_canAdvance_witness :
  can_move_token (Player_init 1 true) (mkToken 1 0 10 false) 5 = Some true.
Proof.
  apply (can_move_token_is_canAdvance (Player_init 1 true) (mkToken 1 0 10 false) 5).
  - simpl. lia.
  - lia.
  - right. left. vm_compute. split; congruence.
Defined.

(** * Reading and writing tokens in the state *)

Lemma set_tokens_id (pl : Player) : set_tokens pl (tokens pl) = pl.
Proof. by destruct pl. Qed.

Lemma store_token_id (g : Game) (pi ti : nat) (pl : Player) (t : Token) :
  players g !! pi = Some pl → tokens pl !! ti = Some t →
  store_token g pi ti t = g.
Proof.
  intros Hpl Ht. unfold store_token, set_players. destruct g as [n ps tn wo].
  simpl in *. f_equal.
  apply list_eq. intros j. destruct (decide (pi = j)) as [<-|Hne].
  - rewrite list_lookup_alter_eq, Hpl. simpl.
    by rewrite (list_insert_id _ _ _ Ht), set_tokens_id.
  - by rewrite list_lookup_alter_ne.
Qed.

Lemma get_token_store_eq (g : Game) (pi ti : nat) (pl : Player) (t0 t : Token) :
  players g !! pi = Some pl → tokens pl !! ti = Some t0 →
  get_token (store_token g pi ti t) pi ti = Some t.
Proof.
  intros Hpl Ht. unfold get_token, store_token. simpl.
  rewrite list_lookup_alter_eq, Hpl. simpl.
  apply list_lookup_insert_eq. by eapply lookup_lt_Some.
Qed.

Lemma get_token_store_ne (g : Game) (pi ti pj tj : nat) (t : Token) :
  pj ≠ pi ∨ tj ≠ ti →
  get_token (store_token g pi ti t) pj tj = get_token g pj tj.
Proof.
  intros Hne. unfold get_token, store_token. simpl.
  destruct (decide (pi = pj)) as [<-|Hp].
  - rewrite list_lookup_alter_eq.
    destruct (players g !! pi) as [pl|]; [simpl|done].
    apply list_lookup_insert_ne. destruct Hne; congruence.
  - by rewrite list_lookup_alter_ne.
Qed.

Lemma get_token_capture_all (g : Game) (m : nat) (pos : Z) (pj tj : nat) :
  get_token (capture_all m pos g) pj tj =
    pl ← players g !! pj;
    (if decide (idx pl = m) then id else capture_token pos) <$> tokens pl !! tj.
Proof.
  unfold get_token, capture_all. simpl. rewrite list_lookup_fmap.
  destruct (players g !! pj) as [pl|]; [simpl|done].
  unfold capture_player. case_decide.
  - by destruct (tokens pl !! tj).
  - simpl. by rewrite list_lookup_fmap.
Qed.

Lemma Forall_tokens_lookup (P : Token → Prop) (g : Game) (pi ti : nat) (t : Token) :
  Forall_tokens P g → get_token g pi ti = Some t → P t.
Proof.
  unfold Forall_tokens, get_token. intros HP Ht.
  destruct (players g !! pi) as [pl|] eqn:Hpl; [simpl in Ht|done].
  pose proof (Forall_lookup_1 _ _ _ _ HP Hpl) as Hts. simpl in Hts.
  exact (Forall_lookup_1 _ _ _ _ Hts Ht).
Qed.

Lemma Forall_tokens_store (P : Token → Prop) (g : Game) (pi ti : nat) (t : Token) :
  Forall_tokens P g → P t → Forall_tokens P (store_token g pi ti t).
Proof.
  unfold Forall_tokens, store_token. simpl. intros HP Ht.
  apply Forall_alter; [done|]. intros pl Hpl Hts.
  simpl. by apply Forall_insert.
Qed.

Lemma Forall_tokens_capture_all (P : Token → Prop) (g : Game) (m : nat) (pos : Z) :
  (∀ t, P t → P (capture_token pos t)) →
  Forall_tokens P g → Forall_tokens P (capture_all m pos g).
Proof.
  unfold Forall_tokens, capture_all. simpl. intros Hcap HP.
  apply Forall_fmap. eapply Forall_impl; [exact HP|].
  intros pl Hpl. simpl. unfold capture_player. case_decide; [done|].
  simpl in *. apply Forall_fmap. exact (Forall_impl _ _ _ Hpl Hcap).
Qed.

(** * Capture resolution *)

Lemma position_is_safe_None (pos : Z) :
  position_is_safe pos None =
    Some (bool_decide (0 <= pos < OUTER_TRACK ∧ pos ∈ SAFE_SQUARES)).
Proof.
  unfold position_is_safe.
  destruct (decide (pos < 0 ∨ pos >= OUTER_TRACK)) as [Hoff|Hon].
  { rewrite bool_decide_false; [done|lia]. }
  destruct (decide (pos ∈ SAFE_SQUARES)) as [Hs|Hs].
  - rewrite bool_decide_true; [done|]. split; [lia|done].
  - rewrite bool_decide_false; [done|]. tauto.
Qed.

Lemma position_is_safe_valid (pos : Z) (p : nat) :
  (p < 4)%nat → position_is_safe pos (Some p) = position_is_safe pos None.
Proof.
  intros Hp. unfold position_is_safe.
  destruct (decide (pos < 0 ∨ pos >= OUTER_TRACK)) as [Hoff|Hon]; [done|].
  destruct (decide (pos ∈ SAFE_SQUARES)) as [Hs|Hs]; [done|].
  rewrite START_SQUARE_valid by done. simpl.
  rewrite bool_decide_false; [done|].
  intros ->. by apply start_in_SAFE_SQUARES in Hp.
Qed.

Lemma position_is_safe_landing (pos : Z) (p : nat) :
  pos ∈ SAFE_SQUARES ∨ START_SQUARE !! p = Some pos →
  0 <= pos < OUTER_TRACK →
  position_is_safe pos (Some p) = Some true.
Proof.
  intros Hsafe Hpos. unfold position_is_safe.
  rewrite decide_False by lia.
  destruct Hsafe as [Hs|Hs].
  - by rewrite decide_True.
  - destruct (decide (pos ∈ SAFE_SQUARES)); [done|].
    rewrite Hs. simpl. by rewrite bool_decide_true.
Qed.

Lemma handle_capture_cases (g g' : Game) (player : Player) (tok : Token) :
  handle_capture g player tok = Some g' →
  g' = g
  ∨ (0 <= position tok < OUTER_TRACK
     ∧ position_is_safe (position tok) (Some (idx player)) = Some false
     ∧ g' = capture_all (idx player) (position tok) g).
Proof.
  unfold handle_capture. case_decide; [intros [= <-]; by left|].
  destruct (position_is_safe _ _) as [[|]|]; simpl; [intros [= <-]; by left| |done].
  intros [= <-]. right. split; [lia|done].
Qed.

Lemma handle_capture_total (g : Game) (player : Player) (tok : Token) :
  (idx player < 4)%nat → is_Some (handle_capture g player tok).
Proof.
  intros Hp. unfold handle_capture. case_decide; [done|].
  rewrite position_is_safe_valid, position_is_safe_None by done. simpl.
  by case_bool_decide.
Qed.

(** * Move application, token by token *)

Lemma move_token_factor (g : Game) (pi ti : nat) (roll : Z) :
  move_token g pi ti roll =
    player ← players g !! pi;
    token ← tokens player !! ti;
    '(token', check) ← token_after_move player token roll;
    if (check : bool)
    then handle_capture (store_token g pi ti token') player token'
    else Some (store_token g pi ti token').
Proof.
  unfold move_token, token_after_move.
  destruct (players g !! pi) as [player|] eqn:Hpl; [simpl|done].
  destruct (tokens player !! ti) as [token|] eqn:Ht; [simpl|done].
  pose proof (store_token_id g pi ti player token Hpl Ht) as Hid.
  destruct (is_in_yard token).
  { by destruct (START_SQUARE !! idx player). }
  case_decide.
  { destruct (local_distance_to_home_entry _ _); [simpl|done].
    repeat case_decide; done. }
  repeat case_decide; simpl; by rewrite ?Hid.
Qed.

Lemma token_after_move_total (player : Player) (token : Token) (roll : Z) :
  (idx player < 4)%nat → is_Some (token_after_move player token roll).
Proof.
  intros Hp. unfold token_after_move.
  rewrite START_SQUARE_valid, local_distance_valid by done. simpl.
  destruct (is_in_yard token); [done|]. repeat case_decide; done.
Qed.

Lemma token_after_move_check (player : Player) (token token' : Token) (roll : Z) :
  token_after_move player token roll = Some (token', true) →
  0 <= position token' < OUTER_TRACK ∧ finished token' = finished token.
Proof.
  unfold token_after_move. destruct (is_in_yard token).
  { destruct (START_SQUARE !! idx player) as [s|] eqn:Hs; [simpl|done].
    intros [= <-]. simpl. split; [|done].
    apply START_SQUARE_Some in Hs as [Hp ->]. by apply start_on_track. }
  case_decide.
  { destruct (local_distance_to_home_entry _ _); [simpl|done].
    case_decide; [|done]. intros [= <-]. simpl. split; [|done].
    apply Z.mod_pos_bound. reflexivity. }
  repeat case_decide; done.
Qed.

Lemma token_after_move_no_check (player : Player) (token token' : Token) (roll : Z) :
  0 <= roll →
  token_after_move player token roll = Some (token', false) →
  ¬ (0 <= position token' < OUTER_TRACK).
Proof.
  intros Hroll. unfold token_after_move, is_in_yard.
  case_bool_decide.
  { destruct (START_SQUARE !! idx player); done. }
  unfold OUTER_TRACK, HOME_STRETCH in *. case_decide.
  { destruct (local_distance_to_home_entry _ _) as [d|]; [simpl|done].
    repeat case_decide; try done; intros [= <-]; simpl; lia. }
  repeat case_decide; intros [= <-]; simpl; lia.
Qed.

Lemma move_token_total (g : Game) (pi ti : nat) (roll : Z) (player : Player)
    (token : Token) :
  players g !! pi = Some player → tokens player !! ti = Some token →
  (idx player < 4)%nat →
  is_Some (move_token g pi ti roll).
Proof.
  intros Hpl Ht Hp. rewrite move_token_factor, Hpl. simpl. rewrite Ht. simpl.
  destruct (token_after_move_total player token roll Hp) as [[token' chk] ->].
  simpl. destruct chk; [by apply handle_capture_total|done].
Qed.

Lemma handle_capture_captures (g g' : Game) (player : Player) (token' : Token) :
  0 <= position token' < OUTER_TRACK →
  handle_capture g player token' = Some g' →
  g' = if captures player token' true
       then capture_all (idx player) (position token') g else g.
Proof.
  intros Hon. unfold handle_capture, captures. rewrite decide_False by lia.
  destruct (position_is_safe _ _) as [[|]|]; simpl; [| |done]; by intros [= <-].
Qed.

(** The whole effect of a move on the state: the moved token takes its new
    value, and every other token stays, or is captured when the landing
    square is unsafe and its owner is another player. *)
Lemma move_token_effect (g g' : Game) (pi ti : nat) (roll : Z)
    (player : Player) (token : Token) :
  players g !! pi = Some player → tokens player !! ti = Some token →
  move_token g pi ti roll = Some g' →
  ∃ token' check,
    token_after_move player token roll = Some (token', check)
    ∧ get_token g' pi ti = Some token'
    ∧ ∀ pj tj, pj ≠ pi ∨ tj ≠ ti →
        get_token g' pj tj =
          pl ← players g !! pj;
          (if captures player token' check && bool_decide (idx pl ≠ idx player)
           then capture_token (position token') else id) <$> tokens pl !! tj.
Proof.
  intros Hpl Ht. rewrite move_token_factor, Hpl. simpl. rewrite Ht. simpl.
  destruct (token_after_move player token roll) as [[token' check]|] eqn:Hmv;
    [simpl|done].
  assert (∀ pj tj, pj ≠ pi ∨ tj ≠ ti →
    get_token (store_token g pi ti token') pj tj =
      pl ← players g !! pj; id <$> tokens pl !! tj) as Hstore.
  { intros pj tj Hne. rewrite get_token_store_ne by done. unfold get_token.
    destruct (players g !! pj) as [pl|]; [simpl|done].
    by destruct (tokens pl !! tj). }
  destruct check; cycle 1.
  { intros [= <-]. exists token', false. split; [done|].
    split; [by eapply get_token_store_eq|]. exact Hstore. }
  intros Hcap. exists token', true. split; [done|].
  apply token_after_move_check in Hmv as [Hon _].
  apply handle_capture_captures in Hcap; [|done].
  destruct (captures player token' true); subst g'; cycle 1.
  { split; [by eapply get_token_store_eq|]. exact Hstore. }
  split.
  - rewrite get_token_capture_all. unfold store_token. simpl.
    rewrite list_lookup_alter_eq, Hpl. simpl. rewrite decide_True by done.
    simpl. rewrite list_lookup_insert_eq; [done|]. by eapply lookup_lt_Some.
  - intros pj tj Hne. rewrite get_token_capture_all. unfold store_token. simpl.
    destruct (decide (pi = pj)) as [<-|Hp].
    + rewrite list_lookup_alter_eq, Hpl. simpl. rewrite decide_True by done.
      rewrite bool_decide_false by (intros Hn; by apply Hn).
      rewrite list_lookup_insert_ne; [done|]. destruct Hne; congruence.
    + rewrite list_lookup_alter_ne by done.
      destruct (players g !! pj) as [pl|]; [simpl|done].
      destruct (decide (idx pl = idx player)) as [He|He].
      * by rewrite bool_decide_false by (intros Hn; by apply Hn).
      * by rewrite bool_decide_true.
Qed.

Lemma Forall_tokens_get (P : Token → Prop) (g : Game) :
  Forall_tokens P g ↔ ∀ pi ti t, get_token g pi ti = Some t → P t.
Proof.
  split; [intros HP pi ti t; by apply Forall_tokens_lookup|].
  intros HP. apply Forall_lookup. intros pi pl Hpl.
  apply Forall_lookup. intros ti t Ht. apply (HP pi ti).
  unfold get_token. by rewrite Hpl.
Qed.

(** An invariant of single tokens that the moved token keeps and that
    capture keeps is kept by the whole move. *)
Lemma move_token_Forall_tokens (P : Token → Prop) (g g' : Game) (pi ti : nat)
    (roll : Z) (player : Player) (token : Token) :
  players g !! pi = Some player → tokens player !! ti = Some token →
  move_token g pi ti roll = Some g' →
  (∀ token' check,
     token_after_move player token roll = Some (token', check) → P token') →
  (∀ pos t, P t → P (capture_token pos t)) →
  Forall_tokens P g → Forall_tokens P g'.
Proof.
  intros Hpl Ht Hmv Hmoved Hcap HP.
  destruct (move_token_effect _ _ _ _ _ _ _ Hpl Ht Hmv)
    as (token' & check & Hafter & Hself & Hothers).
  apply Forall_tokens_get. intros pj tj t Hget.
  destruct (decide (pj = pi ∧ tj = ti)) as [[-> ->]|Hne].
  { rewrite Hself in Hget. injection Hget as <-. by eapply Hmoved. }
  rewrite Hothers in Hget by (destruct (decide (pj = pi)); naive_solver).
  destruct (players g !! pj) as [pl|] eqn:Hpj; [simpl in Hget|done].
  destruct (tokens pl !! tj) as [t0|] eqn:Htj; [simpl in Hget|done].
  assert (P t0) as Ht0.
  { apply (Forall_tokens_lookup P g pj tj); [done|].
    unfold get_token. by rewrite Hpj. }
  injection Hget as <-. destruct (_ && _); [by apply Hcap|done].
Qed.

(** * Single tokens under a move and under capture *)

Lemma capture_token_cases (pos : Z) (t : Token) :
  (capture_token pos t = t
   ∧ (finished t = true ∨ position t < 0 ∨ position t ≠ pos))
  ∨ (capture_token pos t = set_position t (-1)
     ∧ finished t = false ∧ 0 <= position t ∧ position t = pos).
Proof.
  unfold capture_token, is_on_board.
  destruct (finished t); [left; by rewrite andb_false_r; auto|].
  do 2 case_bool_decide; simpl; [right; split; [done|lia]|left..];
    (split; [done|]); right; (by right) || (left; lia).
Qed.

Lemma capture_token_finished (pos : Z) (t : Token) :
  finished (capture_token pos t) = finished t.
Proof. by destruct (capture_token_cases pos t) as [[-> _]|[-> _]]. Qed.

Lemma capture_token_inv (pos : Z) (t : Token) :
  token_inv t → token_inv (capture_token pos t).
Proof.
  destruct (capture_token_cases pos t) as [[-> _]|(-> & Hf & _)]; [done|].
  intros _. split; simpl; [by rewrite Hf|done].
Qed.

Lemma capture_token_ok (pos : Z) (t : Token) :
  token_ok t → token_ok (capture_token pos t).
Proof.
  destruct (capture_token_cases pos t) as [[-> _]|(-> & Hf & _)]; [done|].
  intros _. unfold token_ok, final_index. simpl. rewrite Hf.
  split; [done|]. split; [done|]. unfold OUTER_TRACK, HOME_STRETCH. lia.
Qed.

Lemma token_after_move_inv (player : Player) (token token' : Token)
    (roll : Z) (check : bool) :
  1 <= roll → token_inv token →
  token_after_move player token roll = Some (token', check) →
  token_inv token'.
Proof.
  intros Hroll [Hfin Hyard]. unfold token_after_move, is_in_yard, token_inv.
  unfold final_index, OUTER_TRACK, HOME_STRETCH in *.
  case_bool_decide as Hy.
  { destruct (START_SQUARE !! idx player) as [s|]; [simpl|done].
    intros [= <- _]. simpl. rewrite (Hyard Hy). done. }
  destruct (finished token) eqn:Hf.
  - (* a finished token stands on the final index and is left alone *)
    rewrite (Hfin eq_refl). rewrite decide_False by lia. rewrite decide_True by lia.
    rewrite decide_False by lia. rewrite decide_False by lia.
    intros [= <- _]. rewrite Hf. naive_solver.
  - case_decide.
    { destruct (local_distance_to_home_entry _ _) as [d|]; [simpl|done].
      repeat case_decide; intros [= <- _]; simpl; rewrite ?Hf;
        split; try done; intros; try lia; simpl in *; lia. }
    repeat case_decide; intros [= <- _]; simpl; rewrite ?Hf;
      split; try done; intros; try lia; simpl in *; lia.
Qed.

Lemma token_after_move_finished_fixed (player : Player) (token token' : Token)
    (roll : Z) (check : bool) :
  1 <= roll → token_inv token → finished token = true →
  token_after_move player token roll = Some (token', check) →
  token' = token.
Proof.
  intros Hroll [Hfin _] Hf. specialize (Hfin Hf).
  unfold token_after_move, is_in_yard.
  unfold final_index, OUTER_TRACK, HOME_STRETCH in *. rewrite Hfin.
  rewrite bool_decide_false by lia.
  rewrite decide_False by lia. rewrite decide_True by lia.
  rewrite decide_False by lia. rewrite decide_False by lia. by intros [= <- _].
Qed.

(** * Capture and safety *)

(** C3: a move that lands on an unsafe shared-track square sends every
    opposing token standing there back to the yard, its finished flag
    unchanged, and leaves every other opposing token as it was. *)
Theorem move_token_captures_opponents (g g' : Game) (pi ti : nat) (roll : Z)
    (player : Player) (token token' : Token) :
  1 <= roll <= 6 →
  players g !! pi = Some player → tokens player !! ti = Some token →
  move_token g pi ti roll = Some g' →
  get_token g' pi ti = Some token' →
  0 <= position token' < OUTER_TRACK →
  position_is_safe (position token') (Some (idx player)) = Some false →
  ∀ pj tj opp tok,
    players g !! pj = Some opp → idx opp ≠ idx player →
    tokens opp !! tj = Some tok → token_inv tok →
    ∃ tok', get_token g' pj tj = Some tok'
      ∧ finished tok' = finished tok
      ∧ (position tok = position token' → tok' = set_position tok (-1))
      ∧ (position tok ≠ position token' → tok' = tok).
Proof.
  intros Hroll Hpl Ht Hmv Hself' Hon Hunsafe pj tj opp tok Hpj Hidx Htj Hinv.
  destruct (move_token_effect _ _ _ _ _ _ _ Hpl Ht Hmv)
    as (token0 & check & Hafter & Hself & Hothers).
  rewrite Hself in Hself'. injection Hself' as ->.
  destruct check; cycle 1.
  { apply token_after_move_no_check in Hafter; [done|lia]. }
  assert (pj ≠ pi) as Hne by (intros ->; congruence).
  rewrite (Hothers pj tj (or_introl Hne)), Hpj. simpl. rewrite Htj. simpl.
  unfold captures. rewrite Hunsafe. simpl.
  rewrite bool_decide_true by done. simpl.
  eexists. split; [done|]. split; [apply capture_token_finished|].
  destruct Hinv as [Hfin _]. unfold final_index, OUTER_TRACK, HOME_STRETCH in *.
  destruct (capture_token_cases (position token') tok)
    as [[-> Hwhy]|(-> & _ & _ & Hat)].
  - split; [|done].
    intros Hat. destruct Hwhy as [Hf|[Hneg|Hdiff]]; [|lia|done].
    specialize (Hfin Hf). lia.
  - split; [done|]. intros Hdiff. by destruct Hdiff.
Qed.

Lemma move_token_captures_opponents_witness :
  get_token capture_state_after_4 1 0 = Some (example_token 1 0 (-1))
  ∧ get_token capture_state_after_4 1 1 = Some (example_token 1 1 (-1))
  ∧ get_token capture_state_after_4 1 3 = Some (example_token 1 3 53).
Proof.
  assert (1 <= 4 <= 6) as Hroll by lia.
  assert (0 <= 5 < OUTER_TRACK) as Hon by (vm_compute; split; congruence).
  assert (idx capture_opponent ≠ idx capture_mover) as Hidx by (simpl; lia).
  pose proof (λ tj tok, move_token_captures_opponents
    capture_state capture_state_after_4 0 0 4 capture_mover
    (example_token 0 0 1) (example_token 0 0 5)
    Hroll eq_refl eq_refl eq_refl eq_refl Hon eq_refl
    1%nat tj capture_opponent tok eq_refl Hidx) as H.
  split; [|split].
  - destruct (H 0%nat (example_token 1 0 5) eq_refl) as (t' & -> & _ & Ht' & _).
    { split; simpl; congruence. }
    by rewrite Ht'.
  - destruct (H 1%nat (example_token 1 1 5) eq_refl) as (t' & -> & _ & Ht' & _).
    { split; simpl; congruence. }
    by rewrite Ht'.
  - destruct (H 3%nat (example_token 1 3 53) eq_refl) as (t' & -> & _ & _ & Ht').
    { split; simpl; congruence. }
    by rewrite Ht'.
Defined.

(** C4: on one of the eight safe squares, or on the mover's own start
    square, nothing is captured: every token but the moved one is as
    before. *)
Theorem no_capture_on_safe_landing (g g' : Game) (pi ti : nat) (roll : Z)
    (player : Player) (token token' : Token) :
  players g !! pi = Some player → tokens player !! ti = Some token →
  move_token g pi ti roll = Some g' →
  get_token g' pi ti = Some token' →
  position token' ∈ SAFE_SQUARES
    ∨ START_SQUARE !! idx player = Some (position token') →
  ∀ pj tj, pj ≠ pi ∨ tj ≠ ti → get_token g' pj tj = get_token g pj tj.
Proof.
  intros Hpl Ht Hmv Hself' Hsafe pj tj Hne.
  destruct (move_token_effect _ _ _ _ _ _ _ Hpl Ht Hmv)
    as (token0 & check & Hafter & Hself & Hothers).
  rewrite Hself in Hself'. injection Hself' as ->.
  rewrite (Hothers pj tj Hne).
  assert (captures player token' check = false) as ->.
  { unfold captures. destruct check; [simpl|done].
    apply token_after_move_check in Hafter as [Hon _].
    by rewrite (position_is_safe_landing _ _ Hsafe Hon). }
  unfold get_token. destruct (players g !! pj) as [pl|]; [simpl|done].
  by destruct (tokens pl !! tj).
Qed.

Lemma no_capture_on_safe_landing_witness :
  get_token capture_state_after_safe 1 2 = Some (example_token 1 2 8).
Proof.
  rewrite (no_capture_on_safe_landing capture_state capture_state_after_safe
             0 3 4 capture_mover (example_token 0 3 4) (example_token 0 3 8));
    try reflexivity.
  - left. vm_compute. set_solver.
  - left. lia.
Defined.

(** C10: every start square is one of the eight safe squares, so the
    clause for the mover's own start square adds nothing, and a token that
    leaves the yard captures nothing. *)
Theorem own_start_clause_redundant (p : nat) (pos : Z) :
  (p < 4)%nat →
  position_is_safe pos (Some p) = position_is_safe pos None
  ∧ ∀ (g : Game) (pi ti : nat) (roll : Z) (player : Player) (token : Token),
      players g !! pi = Some player → idx player = p →
      tokens player !! ti = Some token → is_in_yard token = true →
      ∃ s g', START_SQUARE !! p = Some s ∧ s ∈ SAFE_SQUARES
        ∧ move_token g pi ti roll = Some g'
        ∧ get_token g' pi ti = Some (set_position token s)
        ∧ ∀ pj tj, pj ≠ pi ∨ tj ≠ ti → get_token g' pj tj = get_token g pj tj.
Proof.
  intros Hp. split; [by apply position_is_safe_valid|].
  intros g pi ti roll player token Hpl <- Ht Hyard.
  exists (Spec.start (idx player)).
  assert (move_token g pi ti roll =
    Some (store_token g pi ti (set_position token (Spec.start (idx player)))))
    as Hmv.
  { unfold move_token. rewrite Hpl. simpl. rewrite Ht. simpl. rewrite Hyard.
    rewrite START_SQUARE_valid by done. simpl.
    unfold handle_capture. simpl.
    pose proof (start_on_track _ Hp) as Hon.
    rewrite decide_False by lia.
    rewrite position_is_safe_landing; [done| |done].
    left. by apply start_in_SAFE_SQUARES. }
  eexists. split; [by apply START_SQUARE_valid|].
  split; [by apply start_in_SAFE_SQUARES|]. split; [exact Hmv|].
  split; [by eapply get_token_store_eq|].
  intros pj tj Hne. by apply get_token_store_ne.
Qed.

Lemma own_start_clause_redundant_witness :
  position_is_safe 13 (Some 1%nat) = position_is_safe 13 None
  ∧ position_is_safe 14 (Some 1%nat) = position_is_safe 14 None.
Proof.
  assert (1 < 4)%nat as Hp by lia.
  split.
  - exact (proj1 (own_start_clause_redundant 1 13 Hp)).
  - exact (proj1 (own_start_clause_redundant 1 14 Hp)).
Defined.

(** * The token invariant *)

(** C9: a move and a capture resolution keep the token invariant, and they
    leave every finished token exactly as it was. *)
Theorem engine_preserves_token_inv (g : Game) (pi ti : nat) (roll : Z)
    (player : Player) (token : Token) :
  Forall_tokens token_inv g →
  players g !! pi = Some player → tokens player !! ti = Some token →
  (idx player < 4)%nat → 1 <= roll →
  (∃ g', move_token g pi ti roll = Some g'
     ∧ Forall_tokens token_inv g'
     ∧ ∀ pj tj t, get_token g pj tj = Some t → finished t = true →
         get_token g' pj tj = Some t)
  ∧ (∃ g', handle_capture g player token = Some g'
     ∧ Forall_tokens token_inv g'
     ∧ ∀ pj tj t, get_token g pj tj = Some t → finished t = true →
         get_token g' pj tj = Some t).
Proof.
  intros Hinv Hpl Ht Hp Hroll. split.
  - destruct (move_token_total g pi ti roll _ _ Hpl Ht Hp) as [g' Hmv].
    exists g'. split; [done|]. split.
    + eapply move_token_Forall_tokens; [done..| | |done].
      * intros token' check. apply token_after_move_inv; [done|].
        apply (Forall_tokens_lookup _ g pi ti); [done|].
        unfold get_token. by rewrite Hpl.
      * intros pos t. apply capture_token_inv.
    + intros pj tj t Hget Hf.
      destruct (move_token_effect _ _ _ _ _ _ _ Hpl Ht Hmv)
        as (token' & check & Hafter & Hself & Hothers).
      destruct (decide (pj = pi ∧ tj = ti)) as [[-> ->]|Hne].
      * unfold get_token in Hget. rewrite Hpl in Hget. simpl in Hget.
        rewrite Ht in Hget. injection Hget as ->. rewrite Hself. f_equal.
        eapply token_after_move_finished_fixed; [done| |done..].
        apply (Forall_tokens_lookup _ g pi ti); [done|].
        unfold get_token. by rewrite Hpl.
      * rewrite Hothers by (destruct (decide (pj = pi)); naive_solver).
        unfold get_token in Hget.
        destruct (players g !! pj) as [pl|]; [simpl in *|done].
        rewrite Hget. simpl. destruct (_ && _); [|done].
        destruct (capture_token_cases (position token') t)
          as [[-> _]|(_ & Hnf & _)]; [done|congruence].
  - destruct (handle_capture_total g player token Hp) as [g' Hcap].
    exists g'. split; [done|].
    apply handle_capture_cases in Hcap as [->|(_ & _ & ->)]; [done|]. split.
    + apply Forall_tokens_capture_all; [|done]. intros t.
      apply capture_token_inv.
    + intros pj tj t Hget Hf. rewrite get_token_capture_all.
      unfold get_token in Hget.
      destruct (players g !! pj) as [pl|]; [simpl in *|done].
      rewrite Hget. simpl. case_decide; [done|].
      destruct (capture_token_cases (position token) t)
        as [[-> _]|(_ & Hnf & _)]; [done|congruence].
Qed.

Lemma engine_preserves_token_inv_witness :
  ∃ g', move_token capture_state 0 0 4 = Some g' ∧ Forall_tokens token_inv g'.
Proof.
  assert (Forall_tokens token_inv capture_state) as Hinv.
  { repeat constructor; simpl; congruence. }
  assert (idx capture_mover < 4)%nat as Hp by (simpl; lia).
  assert (1 <= 4) as Hroll by lia.
  destruct (engine_preserves_token_inv capture_state 0 0 4 capture_mover
              (example_token 0 0 1) Hinv eq_refl eq_refl Hp Hroll)
    as [(g' & Hmv & Hinv' & _) _].
  by exists g'.
Defined.

(** * Reachable states *)

Lemma Game_init_spec (n : nat) (cpus : option (list bool)) (g : Game) :
  Game_init n cpus = Some g →
  (2 ≤ n ≤ 4)%nat ∧ num_players g = n ∧ turn g = 0%nat ∧ winner_order g = []
  ∧ length (players g) = n
  ∧ ∀ i pl, players g !! i = Some pl → (i < n)%nat ∧ ∃ c, pl = Player_init i c.
Proof.
  unfold Game_init. case_decide as Hn; [|done].
  destruct (mapM _ _) as [ps|] eqn:Hps; [simpl|done]. intros [= <-]. simpl.
  apply mapM_Some in Hps.
  repeat split; try lia.
  - apply Forall2_length in Hps. by rewrite length_seq in Hps.
  - destruct (Forall2_lookup_r _ _ _ _ _ Hps H) as (j & Hj & _).
    apply lookup_seq in Hj. lia.
  - destruct (Forall2_lookup_r _ _ _ _ _ Hps H) as (j & Hj & Hf).
    apply lookup_seq in Hj as [-> _]. simpl in Hf.
    destruct (default (replicate n false) cpus !! i) as [c|]; [|done].
    injection Hf as <-. by exists c.
Qed.

Lemma Game_init_inv (n : nat) (cpus : option (list bool)) (g : Game) :
  Game_init n cpus = Some g → game_inv g.
Proof.
  intros Hg. apply Game_init_spec in Hg as (Hn & _ & _ & _ & _ & Hps).
  split.
  - apply Forall_lookup. intros i pl Hpl.
    destruct (Hps i pl Hpl) as [Hi [c ->]]. simpl. lia.
  - apply Forall_lookup. intros i pl Hpl.
    destruct (Hps i pl Hpl) as [Hi [c ->]]. simpl.
    repeat constructor; simpl; try done; unfold final_index, OUTER_TRACK, HOME_STRETCH; lia.
Qed.

Lemma store_token_roster (g : Game) (pi ti : nat) (t : Token) :
  idx <$> players (store_token g pi ti t) = idx <$> players g.
Proof.
  unfold store_token. simpl. apply list_eq. intros j.
  rewrite !list_lookup_fmap. destruct (decide (pi = j)) as [<-|Hne].
  - rewrite list_lookup_alter_eq. by destruct (players g !! pi).
  - by rewrite list_lookup_alter_ne.
Qed.

Lemma capture_all_roster (g : Game) (m : nat) (pos : Z) :
  idx <$> players (capture_all m pos g) = idx <$> players g.
Proof.
  unfold capture_all. simpl. rewrite <- list_fmap_compose.
  apply list_fmap_ext. intros j pl _. simpl. unfold capture_player.
  by case_decide.
Qed.

Lemma move_token_roster (g g' : Game) (pi ti : nat) (roll : Z) :
  move_token g pi ti roll = Some g' →
  idx <$> players g' = idx <$> players g
  ∧ num_players g' = num_players g ∧ turn g' = turn g
  ∧ winner_order g' = winner_order g.
Proof.
  rewrite move_token_factor.
  destruct (players g !! pi) as [player|]; [simpl|done].
  destruct (tokens player !! ti) as [token|]; [simpl|done].
  destruct (token_after_move _ _ _) as [[token' [|]]|]; [simpl| |done].
  - intros Hcap. apply handle_capture_cases in Hcap as [->|(_ & _ & ->)].
    + by rewrite store_token_roster.
    + by rewrite capture_all_roster, store_token_roster.
  - intros [= <-]. by rewrite store_token_roster.
Qed.

Lemma move_token_valid_roster (g g' : Game) (pi ti : nat) (roll : Z) :
  move_token g pi ti roll = Some g' → valid_roster g → valid_roster g'.
Proof.
  intros Hmv Hv. apply move_token_roster in Hmv as (Hidx & _).
  unfold valid_roster in *.
  apply (Forall_fmap idx (λ i, (i < 4)%nat)). rewrite Hidx.
  by apply Forall_fmap.
Qed.

Lemma can_move_token_not_finished (player : Player) (token : Token) (roll : Z) :
  can_move_token player token roll = Some true → finished token = false.
Proof. unfold can_move_token. by destruct (finished token). Qed.

Lemma token_after_move_ok (player : Player) (token token' : Token)
    (roll : Z) (check : bool) :
  1 <= roll → token_ok token →
  can_move_token player token roll = Some true →
  token_after_move player token roll = Some (token', check) →
  token_ok token'.
Proof.
  intros Hroll [Hr Hiff] Hlegal.
  pose proof (can_move_token_not_finished _ _ _ Hlegal) as Hf.
  revert Hlegal. unfold can_move_token, token_after_move, is_in_yard, token_ok.
  unfold final_index, OUTER_TRACK, HOME_STRETCH in *. rewrite Hf.
  case_bool_decide as Hy.
  { intros _. destruct (START_SQUARE !! idx player) as [s|] eqn:Hs; [simpl|done].
    intros [= <- _]. simpl. rewrite Hf.
    apply START_SQUARE_Some in Hs as [Hp ->].
    pose proof (start_on_track _ Hp). unfold OUTER_TRACK in *.
    split; [lia|]. split; [done|lia]. }
  case_decide.
  { destruct (local_distance_to_home_entry _ _) as [d|]; [simpl|done].
    case_decide.
    - intros _ [= <- _]. simpl. rewrite Hf.
      pose proof (Z.mod_pos_bound (position token + roll) 52 eq_refl).
      split; [lia|]. split; [done|lia].
    - case_bool_decide; [|done]. intros _.
      case_decide; intros [= <- _]; simpl in *; rewrite ?Hf;
        (split; [lia|]); split; try done; lia. }
  rewrite decide_True by lia. case_bool_decide; [|done]. intros _.
  repeat case_decide; intros [= <- _]; simpl in *; rewrite ?Hf;
    try lia; (split; [lia|]); split; try done; lia.
Qed.

Lemma legal_move_game_inv (g g' : Game) (pi ti : nat) (roll : Z)
    (player : Player) (token : Token) :
  players g !! pi = Some player → tokens player !! ti = Some token →
  1 <= roll <= 6 →
  can_move_token player token roll = Some true →
  move_token g pi ti roll = Some g' →
  game_inv g → game_inv g'.
Proof.
  intros Hpl Ht Hroll Hlegal Hmv [Hv Hok]. split.
  - by eapply move_token_valid_roster.
  - eapply move_token_Forall_tokens; [done..| | |done].
    + intros token' check. apply token_after_move_ok; [lia| |done].
      apply (Forall_tokens_lookup _ g pi ti); [done|].
      unfold get_token. by rewrite Hpl.
    + intros pos t. apply capture_token_ok.
Qed.

Lemma legal_moves_game_inv (g g' : Game) :
  legal_moves g g' → game_inv g → game_inv g'.
Proof.
  induction 1 as [g|g g1 g2 pi ti roll player token _ IH Hpl Ht Hroll Hlegal Hmv];
    [done|].
  intros Hinv. eapply legal_move_game_inv; eauto.
Qed.

Lemma reachable_game_inv (g : Game) : reachable g → game_inv g.
Proof.
  intros (n & cpus & g0 & Hinit & Hmoves).
  eapply legal_moves_game_inv; [done|]. by eapply Game_init_inv.
Qed.

Lemma run_moves_legal (ms : list (nat * nat * Z)) (g0 g g' : Game) :
  legal_moves g0 g → run_moves ms g = Some g' → legal_moves g0 g'.
Proof.
  revert g. induction ms as [|[[pi ti] roll] ms IH]; intros g Hg; simpl.
  { by intros [= <-]. }
  destruct (players g !! pi) as [player|] eqn:Hpl; [simpl|done].
  destruct (tokens player !! ti) as [token|] eqn:Ht; [simpl|done].
  destruct (can_move_token player token roll) as [[|]|] eqn:Hlegal;
    [simpl| done..].
  case_bool_decide as Hroll; [simpl|done].
  destruct (move_token g pi ti roll) as [g1|] eqn:Hmv; [simpl|done].
  apply IH. by eapply legal_moves_step.
Qed.

Lemma near_finish_reachable : reachable near_finish.
Proof.
  exists 2%nat, None. eexists. split; [reflexivity|].
  apply (run_moves_legal near_finish_script _ _ _ (legal_moves_refl _)).
  vm_compute. reflexivity.
Qed.

(** * Finishing *)

(** C7: in every state that legal moves can reach, a token is finished
    exactly on the final stretch index and no token is beyond it; a legal
    move sets the finished flag of the moved token exactly when it lands
    on stretch index [HOME_STRETCH - 1], and changes no other finished
    flag. *)
Theorem finished_exactly_on_final_index (g : Game) :
  reachable g →
  (∀ pi ti t, get_token g pi ti = Some t →
     -1 <= position t <= final_index
     ∧ (finished t = true ↔ position t - OUTER_TRACK = HOME_STRETCH - 1))
  ∧ ∀ pi ti roll player token,
      players g !! pi = Some player → tokens player !! ti = Some token →
      1 <= roll <= 6 → can_move_token player token roll = Some true →
      ∃ g' token',
        move_token g pi ti roll = Some g'
        ∧ get_token g' pi ti = Some token'
        ∧ finished token = false
        ∧ (finished token' = true ↔
             position token' - OUTER_TRACK = HOME_STRETCH - 1)
        ∧ position token' <= final_index
        ∧ ∀ pj tj t, pj ≠ pi ∨ tj ≠ ti → get_token g pj tj = Some t →
            ∃ t', get_token g' pj tj = Some t' ∧ finished t' = finished t.
Proof.
  intros Hreach. pose proof (reachable_game_inv g Hreach) as [Hv Hok].
  assert (∀ t, token_ok t →
    -1 <= position t <= final_index
    ∧ (finished t = true ↔ position t - OUTER_TRACK = HOME_STRETCH - 1)) as Hshape.
  { intros t [Hr Hiff]. split; [done|]. rewrite Hiff.
    unfold final_index. lia. }
  split.
  { intros pi ti t Hget. apply Hshape. by eapply Forall_tokens_lookup. }
  intros pi ti roll player token Hpl Ht Hroll Hlegal.
  assert (idx player < 4)%nat as Hp by exact (Forall_lookup_1 _ _ _ _ Hv Hpl).
  destruct (move_token_total g pi ti roll _ _ Hpl Ht Hp) as [g' Hmv].
  destruct (move_token_effect _ _ _ _ _ _ _ Hpl Ht Hmv)
    as (token' & check & Hafter & Hself & Hothers).
  assert (token_ok token') as Hok'.
  { eapply token_after_move_ok; [| |done..]; [lia|].
    apply (Forall_tokens_lookup _ g pi ti); [done|].
    unfold get_token. by rewrite Hpl. }
  exists g', token'. split; [done|]. split; [done|].
  split; [by eapply can_move_token_not_finished|].
  destruct (Hshape _ Hok') as [Hr' Hiff']. split; [done|]. split; [lia|].
  intros pj tj t Hne Hget. rewrite (Hothers pj tj Hne).
  unfold get_token in Hget.
  destruct (players g !! pj) as [pl|]; [simpl in *|done].
  rewrite Hget. simpl. eexists. split; [done|].
  destruct (_ && _); [apply capture_token_finished|done].
Qed.

Lemma finished_exactly_on_final_index_witness :
  (∃ g' token', move_token near_finish 0 0 3 = Some g'
     ∧ get_token g' 0 0 = Some token'
     ∧ position token' = final_index ∧ finished token' = true)
  ∧ (∃ g' token', move_token near_finish 0 0 2 = Some g'
     ∧ get_token g' 0 0 = Some token'
     ∧ position token' = final_index - 1 ∧ finished token' = false).
Proof.
  destruct (finished_exactly_on_final_index near_finish near_finish_reachable)
    as [_ Hmove].
  assert (players near_finish !! 0%nat
          = Some (mkPlayer 0 [example_token 0 0 54; example_token 0 1 (-1);
                              example_token 0 2 (-1); example_token 0 3 (-1)]
                    false)) as Hpl by reflexivity.
  split.
  - destruct (Hmove 0%nat 0%nat 3 _ _ Hpl eq_refl ltac:(lia) eq_refl)
      as (g' & token' & Hmv & Hget & _ & Hiff & _).
    exists g', token'. split; [done|]. split; [done|].
    vm_compute in Hmv. injection Hmv as <-.
    vm_compute in Hget. injection Hget as <-. split; reflexivity.
  - destruct (Hmove 0%nat 0%nat 2 _ _ Hpl eq_refl ltac:(lia) eq_refl)
      as (g' & token' & Hmv & Hget & _ & Hiff & _).
    exists g', token'. split; [done|]. split; [done|].
    vm_compute in Hmv. injection Hmv as <-.
    vm_compute in Hget. injection Hget as <-. split; reflexivity.
Defined.

(** * The turn loop *)

Lemma advance_turn_Some (g g' : Game) :
  advance_turn g = Some g' →
  num_players g ≠ 0%nat
  ∧ g' = set_turn g ((turn g + 1) `mod` num_players g)%nat.
Proof. unfold advance_turn. case_decide; [done|]. by intros [= <-]. Qed.

Lemma record_if_finished_cases (g : Game) (pi : nat) (player : Player) :
  record_if_finished g pi player = g
  ∨ ((pi ∉ winner_order g)
     ∧ record_if_finished g pi player = append_winner g pi).
Proof.
  unfold record_if_finished. destruct (all_finished player); [simpl|by left].
  case_bool_decide; [by right|by left].
Qed.

(** The three ways through lines 396-424: no legal move, a pass, a move. *)
Lemma take_turn_cases (g g' : Game) (player : Player) (inp : TurnInput) :
  take_turn g player inp = Some g' →
  ∃ g2 (extra_turn : bool),
    (if extra_turn then g' = g2 else advance_turn g2 = Some g')
    ∧ ((any_moves_available player (die inp) = Some false
        ∧ g2 = g ∧ extra_turn = bool_decide (die inp = 6))
       ∨ (any_moves_available player (die inp) = Some true
          ∧ select_token_for_move g player (die inp) (typed inp) = Some None
          ∧ g2 = g ∧ extra_turn = false)
       ∨ (any_moves_available player (die inp) = Some true
          ∧ ∃ ti g1 player',
              select_token_for_move g player (die inp) (typed inp)
                = Some (Some ti)
              ∧ move_token g (turn g) ti (die inp) = Some g1
              ∧ players g1 !! turn g = Some player'
              ∧ g2 = record_if_finished g1 (turn g) player'
              ∧ extra_turn = bool_decide (die inp = 6))).
Proof.
  unfold take_turn.
  destruct (any_moves_available player (die inp)) as [[|]|]; simpl; [| |done].
  - destruct (select_token_for_move _ _ _ _) as [[ti|]|]; simpl; [| |done].
    + destruct (move_token _ _ _ _) as [g1|] eqn:Hmv; simpl; [|done].
      destruct (players g1 !! turn g) as [player'|] eqn:Hpl'; simpl; [|done].
      intros H.
      exists (record_if_finished g1 (turn g) player'), (bool_decide (die inp = 6)).
      split.
      * destruct (bool_decide (die inp = 6)); [by injection H|done].
      * right; right. split; [done|]. by exists ti, g1, player'.
    + intros H. exists g, false. split; [done|]. right. by left.
  - intros H. exists g, (bool_decide (die inp = 6)). split; [|by left].
    destruct (bool_decide (die inp = 6)); [by injection H|done].
Qed.

Lemma take_turn_ranking (g g' : Game) (player : Player) (inp : TurnInput) :
  take_turn g player inp = Some g' →
  num_players g' = num_players g
  ∧ length (players g') = length (players g)
  ∧ (turn g' = turn g
     ∨ (num_players g ≠ 0%nat
        ∧ turn g' = ((turn g + 1) `mod` num_players g)%nat))
  ∧ (winner_order g' = winner_order g
     ∨ ((turn g ∉ winner_order g)
        ∧ winner_order g' = winner_order g ++ [turn g])).
Proof.
  intros Htt. apply take_turn_cases in Htt as (g2 & extra & Hg' & Hcases).
  assert (num_players g2 = num_players g
          ∧ length (players g2) = length (players g)
          ∧ turn g2 = turn g
          ∧ (winner_order g2 = winner_order g
             ∨ ((turn g ∉ winner_order g)
                ∧ winner_order g2 = winner_order g ++ [turn g])))
    as (Hn & Hlen & Hturn & Hwo).
  { destruct Hcases as [(_ & -> & _)|[(_ & _ & -> & _)|(_ & Hmove)]];
      [by auto..|].
    destruct Hmove as (ti & g1 & player' & _ & Hmv & _ & -> & _).
    apply move_token_roster in Hmv as (Hidx & Hn & Hturn & Hwo).
    apply (f_equal length) in Hidx. rewrite !length_fmap in Hidx.
    destruct (record_if_finished_cases g1 (turn g) player') as [->|[Hnot ->]];
      simpl; rewrite ?Hwo; [by auto|].
    rewrite Hwo in Hnot. by auto 6. }
  destruct extra.
  - subst g'. by auto.
  - apply advance_turn_Some in Hg' as [Hn0 ->]. simpl.
    rewrite Hn, Hturn in *. by auto 6.
Qed.

Lemma NoDup_bounded_length (l : list nat) (n : nat) :
  NoDup l → Forall (λ p, (p < n)%nat) l → (length l ≤ n)%nat.
Proof.
  intros Hnd Hlt. transitivity (length (seq 0 n)); [|by rewrite length_seq].
  apply submseteq_length, NoDup_submseteq; [done|].
  intros x Hx. apply elem_of_seq.
  pose proof (proj1 (Forall_forall _ _) Hlt x Hx). simpl in *. lia.
Qed.

Lemma loop_cond_true (g : Game) :
  loop_cond g = true ↔ (length (winner_order g) < num_players g - 1)%nat.
Proof. unfold loop_cond. rewrite bool_decide_eq_true. lia. Qed.

Lemma play_iteration_ranking (g g' : Game) (ins ins' : list TurnInput) :
  ranking_inv g → loop_cond g = true →
  play_iteration g ins = Some (g', ins') →
  ranking_inv g'
  ∧ num_players g' = num_players g
  ∧ (winner_order g' = winner_order g
     ∨ ∃ p, (p ∉ winner_order g) ∧ winner_order g' = winner_order g ++ [p]).
Proof.
  intros (Hlen & Hturn & Hnd & Hlt & Hmax) Hcond%loop_cond_true Hit.
  assert (num_players g' = num_players g
          ∧ length (players g') = length (players g)
          ∧ (turn g' < num_players g)%nat
          ∧ (winner_order g' = winner_order g
             ∨ ((turn g ∉ winner_order g)
                ∧ winner_order g' = winner_order g ++ [turn g])))
    as (Hn' & Hlen' & Hturn' & Hwo).
  { unfold play_iteration in Hit.
    destruct (players g !! turn g) as [player|]; [simpl in Hit|done].
    destruct (all_finished player).
    - destruct (advance_turn _) as [g2|] eqn:Hadv; [simpl in Hit|done].
      injection Hit as <- <-.
      apply advance_turn_Some in Hadv as [Hn0 ->]. simpl.
      case_decide; simpl in *; (split; [done|]); (split; [done|]);
        (split; [apply Nat.mod_upper_bound; lia|]); auto.
    - destruct ins as [|inp ins0]; [done|].
      destruct (take_turn g player inp) as [g1|] eqn:Htt; [simpl in Hit|done].
      injection Hit as <- <-.
      apply take_turn_ranking in Htt as (Hn1 & Hlen1 & Hturn1 & Hwo1).
      split; [done|]. split; [done|]. split; [|done].
      destruct Hturn1 as [->|[Hn0 ->]]; [done|].
      apply Nat.mod_upper_bound. lia. }
  split; [|split; [done|]].
  - unfold ranking_inv. rewrite Hn', Hlen'. split; [done|]. split; [done|].
    destruct Hwo as [->|[Hnot ->]]; [done|].
    split; [|split].
    + apply NoDup_app. split; [done|]. split; [|apply NoDup_singleton].
      intros x Hx [->|[]%elem_of_nil]%elem_of_cons. done.
    + apply Forall_app. split; [done|]. by apply Forall_singleton.
    + rewrite length_app. simpl. lia.
  - destruct Hwo as [->|[Hnot ->]]; [by left|]. right. by exists (turn g).
Qed.

Lemma Game_init_ranking (n : nat) (cpus : option (list bool)) (g : Game) :
  Game_init n cpus = Some g → ranking_inv g.
Proof.
  intros (Hn & Hnum & Hturn & Hwo & Hlen & _)%Game_init_spec.
  unfold ranking_inv. rewrite Hnum, Hturn, Hwo, Hlen. simpl.
  repeat split; try lia; constructor.
Qed.

Lemma play_reaches_ranking (s s' : Game * list TurnInput) :
  play_reaches s s' → ranking_inv s.1 →
  ranking_inv s'.1 ∧ num_players s'.1 = num_players s.1
  ∧ winner_order s.1 `prefix_of` winner_order s'.1.
Proof.
  induction 1 as [s|g g1 ins ins1 s2 Hcond Hit _ IH]; simpl.
  { intros Hinv. split; [done|]. split; [done|]. reflexivity. }
  intros Hinv.
  destruct (play_iteration_ranking _ _ _ _ Hinv Hcond Hit) as (Hinv1 & Hn1 & Hwo1).
  destruct (IH Hinv1) as (Hinv2 & Hn2 & Hwo2). simpl in *.
  split; [done|]. split; [congruence|].
  etransitivity; [|exact Hwo2].
  destruct Hwo1 as [->|(p & _ & ->)]; [reflexivity|].
  by apply prefix_app_r.
Qed.

Lemma play_loop_reaches (fuel : nat) (g g' : Game) (ins : list TurnInput) :
  play_loop fuel g ins = Some g' →
  loop_cond g' = false ∧ ∃ ins', play_reaches (g, ins) (g', ins').
Proof.
  revert g ins. induction fuel as [|fuel IH]; intros g ins; simpl.
  - destruct (loop_cond g) eqn:Hcond; [done|]. intros [= <-].
    split; [done|]. exists ins. constructor.
  - destruct (loop_cond g) eqn:Hcond; cycle 1.
    { intros [= <-]. split; [done|]. exists ins. constructor. }
    destruct (play_iteration g ins) as [[g1 ins1]|] eqn:Hit; [simpl|done].
    intros Hloop. destruct (IH _ _ Hloop) as [Hexit [ins' Hreach]].
    split; [done|]. exists ins'. by eapply play_reaches_step.
Qed.

(** More fuel does not change what the loop returns. *)
Lemma play_loop_fuel_mono (fuel fuel' : nat) (g g' : Game) (ins : list TurnInput) :
  play_loop fuel g ins = Some g' → (fuel ≤ fuel')%nat →
  play_loop fuel' g ins = Some g'.
Proof.
  revert fuel' g ins. induction fuel as [|fuel IH]; intros fuel' g ins; simpl.
  - destruct (loop_cond g) eqn:Hcond; [done|]. intros [= <-] _.
    destruct fuel'; simpl; by rewrite Hcond.
  - destruct (loop_cond g) eqn:Hcond; cycle 1.
    { intros [= <-] _. destruct fuel'; simpl; by rewrite Hcond. }
    destruct (play_iteration g ins) as [[g1 ins1]|] eqn:Hit; [simpl|done].
    intros Hloop Hle. destruct fuel' as [|fuel']; [lia|].
    simpl. rewrite Hcond, Hit. simpl. apply (IH fuel' _ _ Hloop). lia.
Qed.

(** Every state at which the iterations arrive with the loop condition
    false is what the loop returns, given fuel for the iterations made. *)
Lemma play_reaches_loop (s s' : Game * list TurnInput) :
  play_reaches s s' → loop_cond s'.1 = false →
  ∃ fuel, play_loop fuel s.1 s.2 = Some s'.1.
Proof.
  induction 1 as [[g ins]|g g1 ins ins1 s2 Hcond Hit Hr IH]; intros Hexit;
    simpl in *.
  - exists 0%nat. simpl. by rewrite Hexit.
  - destruct (IH Hexit) as [fuel Hloop]. exists (S fuel). simpl.
    by rewrite Hcond, Hit.
Qed.

Lemma filter_ext_elem_of {A : Type} (P1 P2 : A → Prop)
    `{!∀ x, Decision (P1 x), !∀ x, Decision (P2 x)} (l : list A) :
  (∀ x, x ∈ l → P1 x ↔ P2 x) → filter P1 l = filter P2 l.
Proof.
  induction l as [|a l IH]; [done|]. intros Hiff.
  assert (filter P1 l = filter P2 l) as Hl.
  { apply IH. intros x Hx. apply Hiff. by right. }
  pose proof (Hiff a ltac:(left)) as Ha.
  destruct (decide (P1 a)).
  - rewrite !filter_cons_True by tauto. by rewrite Hl.
  - rewrite !filter_cons_False by tauto. by rewrite Hl.
Qed.

(** Lines 427-429, one roster place after the other. *)
Lemma append_remaining_fold (rest : list nat) (g : Game) :
  NoDup rest →
  winner_order
    (foldl (λ g p, if decide (p ∈ winner_order g) then g
                   else append_winner g p) g rest)
  = winner_order g ++ filter (λ p, p ∉ winner_order g) rest.
Proof.
  revert g. induction rest as [|p rest IH]; intros g; simpl.
  { intros _. by rewrite app_nil_r. }
  intros [Hp Hrest]%NoDup_cons.
  destruct (decide (p ∈ winner_order g)) as [Hin|Hout].
  - rewrite filter_cons_False by tauto. by apply IH.
  - rewrite filter_cons_True by done. rewrite IH by done. simpl.
    rewrite <- app_assoc. simpl. do 2 f_equal.
    apply filter_ext_elem_of. intros x Hx.
    rewrite elem_of_app, list_elem_of_singleton.
    split; [tauto|]. intros Hn [Hw| ->]; done.
Qed.

Lemma append_remaining_permutation (g : Game) :
  ranking_inv g →
  winner_order (append_remaining g) =
    winner_order g
    ++ filter (λ p, p ∉ winner_order g) (seq 0 (length (players g)))
  ∧ winner_order (append_remaining g) ≡ₚ seq 0 (num_players g).
Proof.
  intros (Hlen & _ & Hnd & Hlt & _).
  pose proof (append_remaining_fold (seq 0 (length (players g))) g
                (NoDup_seq _ _)) as Hwo.
  unfold append_remaining. rewrite Hwo. split; [done|].
  apply NoDup_Permutation; [|apply NoDup_seq|].
  - apply NoDup_app. split; [done|]. split; [|apply NoDup_filter, NoDup_seq].
    intros x Hx [Hnot _]%list_elem_of_filter. done.
  - intros x. rewrite elem_of_app, list_elem_of_filter, !elem_of_seq, Hlen.
    split.
    + intros [Hx|[_ Hx]]; [|done].
      pose proof (proj1 (Forall_forall _ _) Hlt x Hx). simpl in *. lia.
    + intros Hx. destruct (decide (x ∈ winner_order g)); [by left|by right].
Qed.

(** * The ranking list *)

(** C8: the ranking list throughout [play].  In every state the turn loop
    passes through, the list is duplicate-free and shorter than the roster,
    later states only extend it, the loop goes on exactly while fewer than
    [n - 1] players are ranked, and at the exit one player is missing, whom
    the final loop appends.  What [play] returns is such an exit state with
    that player appended, its ranking a permutation of the roster; and
    every exit state the iterations arrive at is returned by [play], for
    every amount of fuel from some amount on. *)
Theorem ranking_list_invariant (n : nat) (cpus : option (list bool)) (g0 : Game) :
  Game_init n cpus = Some g0 →
  (∀ ins g ins', play_reaches (g0, ins) (g, ins') →
     NoDup (winner_order g)
     ∧ (length (winner_order g) ≤ n - 1)%nat
     ∧ (loop_cond g = true ↔ (length (winner_order g) < n - 1)%nat)
     ∧ (∀ g2 ins2, play_reaches (g, ins') (g2, ins2) →
          winner_order g `prefix_of` winner_order g2)
     ∧ (loop_cond g = false →
          length (winner_order g) = (n - 1)%nat
          ∧ ∃ p, (p ∉ winner_order g)
              ∧ winner_order (append_remaining g) = winner_order g ++ [p]
              ∧ winner_order (append_remaining g) ≡ₚ seq 0 n))
  ∧ (∀ fuel ins gf, play fuel g0 ins = Some gf →
       winner_order gf ≡ₚ seq 0 n ∧ length (winner_order gf) = n
       ∧ ∃ g ins', play_reaches (g0, ins) (g, ins')
           ∧ loop_cond g = false
           ∧ play_loop fuel g0 ins = Some g
           ∧ gf = append_remaining g)
  ∧ (∀ ins g ins', play_reaches (g0, ins) (g, ins') → loop_cond g = false →
       ∃ fuel, ∀ fuel', (fuel ≤ fuel')%nat →
         play_loop fuel' g0 ins = Some g
         ∧ play fuel' g0 ins = Some (append_remaining g)).
Proof.
  intros Hinit.
  pose proof (Game_init_ranking _ _ _ Hinit) as Hinv0.
  apply Game_init_spec in Hinit as (Hn & Hnum0 & _).
  assert (∀ ins g ins', play_reaches (g0, ins) (g, ins') →
            ranking_inv g ∧ num_players g = n) as Hreach.
  { intros ins g ins' Hr.
    destruct (play_reaches_ranking _ _ Hr Hinv0) as (Hinv & Hnum & _).
    simpl in *. split; [done|congruence]. }
  split; [|split].
  - intros ins g ins' Hr. destruct (Hreach _ _ _ Hr) as [Hinv Hnum].
    pose proof Hinv as (Hlen & Hturn & Hnd & Hlt & Hmax).
    rewrite Hnum in *.
    split; [done|]. split; [done|].
    split; [by rewrite loop_cond_true, Hnum|].
    split.
    { intros g2 ins2 Hr2.
      by destruct (play_reaches_ranking _ _ Hr2 Hinv) as (_ & _ & Hpre). }
    intros Hexit.
    assert (length (winner_order g) = (n - 1)%nat) as Hlen1.
    { apply not_true_iff_false in Hexit. rewrite loop_cond_true, Hnum in Hexit.
      lia. }
    split; [done|].
    destruct (append_remaining_permutation g Hinv) as [Hwo Hperm].
    rewrite Hnum in Hperm.
    pose proof (Permutation_length Hperm) as Hlenf.
    rewrite Hwo, length_app, length_seq, Hlen1 in Hlenf.
    destruct (filter _ _) as [|p [|q rest]] eqn:Hfilter; simpl in Hlenf;
      [lia| |lia].
    exists p. split; [|by rewrite <- Hwo].
    assert (p ∈ filter (λ p, p ∉ winner_order g) (seq 0 (length (players g))))
      as Hp by (rewrite Hfilter; left).
    by apply list_elem_of_filter in Hp as [Hp _].
  - intros fuel ins gf. unfold play.
    destruct (play_loop fuel g0 ins) as [g|] eqn:Hloop; [simpl|done].
    intros [= <-].
    destruct (play_loop_reaches _ _ _ _ Hloop) as [Hexit [ins' Hr]].
    destruct (Hreach _ _ _ Hr) as [Hinv Hnum].
    destruct (append_remaining_permutation g Hinv) as [_ Hperm].
    rewrite Hnum in Hperm. split; [done|].
    split; [by rewrite (Permutation_length Hperm), length_seq|].
    by exists g, ins'.
  - intros ins g ins' Hr Hexit.
    destruct (play_reaches_loop _ _ Hr Hexit) as [fuel Hloop]. simpl in Hloop.
    exists fuel. intros fuel' Hle.
    pose proof (play_loop_fuel_mono _ _ _ _ _ Hloop Hle) as Hloop'.
    split; [done|]. unfold play. by rewrite Hloop'.
Qed.

Lemma ranking_list_invariant_witness :
  ∃ g ins',
    play_reaches (full_game_start, second_wins_inputs) (g, ins')
    ∧ loop_cond g = false
    ∧ winner_order g = [1]%nat
    ∧ second_wins_end = append_remaining g
    ∧ winner_order second_wins_end = [1; 0]%nat
    ∧ winner_order second_wins_end ≡ₚ seq 0 2
    ∧ ∃ fuel, ∀ fuel', (fuel ≤ fuel')%nat →
        play fuel' full_game_start second_wins_inputs = Some second_wins_end.
Proof.
  destruct (ranking_list_invariant 2 (Some [true; true]) full_game_start eq_refl)
    as (Hstates & Hplay & Hexits).
  assert (play 60 full_game_start second_wins_inputs = Some second_wins_end)
    as Hrun by (vm_compute; reflexivity).
  assert (winner_order second_wins_end = [1; 0]%nat) as Hend
    by (vm_compute; reflexivity).
  destruct (Hplay _ _ _ Hrun) as (Hperm & _ & g & ins' & Hr & Hexit & _ & Hgf).
  destruct (Hstates _ _ _ Hr) as (_ & _ & _ & _ & Hlast).
  destruct (Hlast Hexit) as (Hlen & p & _ & Hwo & _).
  destruct (Hexits _ _ _ Hr Hexit) as [fuel Hfuel].
  exists g, ins'.
  split; [exact Hr|]. split; [exact Hexit|].
  split.
  { rewrite <- Hgf, Hend in Hwo.
    destruct (winner_order g) as [|a [|b l]]; simpl in Hlen, Hwo;
      [discriminate Hlen| |discriminate Hlen].
    injection Hwo as <- _. reflexivity. }
  split; [exact Hgf|]. split; [exact Hend|]. split; [exact Hperm|].
  exists fuel. intros fuel' Hle. rewrite Hgf. exact (proj2 (Hfuel fuel' Hle)).
Defined.

(** * The turn cursor *)

(** What lines 396-424 do with the cursor: it advances on every roll but
    6; on a 6 it stays when no move was possible and when a token was
    moved, and it advances when the player passed. *)
Lemma take_turn_cursor (g g' : Game) (player : Player) (inp : TurnInput) :
  take_turn g player inp = Some g' →
  num_players g' = num_players g
  ∧ (die inp ≠ 6 → turn g' = ((turn g + 1) `mod` num_players g)%nat)
  ∧ (die inp = 6 →
       any_moves_available player 6 = Some false
       ∨ (∃ ti, select_token_for_move g player 6 (typed inp) = Some (Some ti)) →
       turn g' = turn g)
  ∧ (die inp = 6 →
       any_moves_available player 6 = Some true →
       select_token_for_move g player 6 (typed inp) = Some None →
       turn g' = ((turn g + 1) `mod` num_players g)%nat).
Proof.
  intros Htt. apply take_turn_cases in Htt as (g2 & extra & Hg' & Hcases).
  assert (num_players g2 = num_players g ∧ turn g2 = turn g) as [Hn Hturn].
  { destruct Hcases as [(_ & -> & _)|[(_ & _ & -> & _)|(_ & Hmove)]];
      [done..|].
    destruct Hmove as (ti & g1 & player' & _ & Hmv & _ & -> & _).
    apply move_token_roster in Hmv as (_ & Hn & Hturn & _).
    by destruct (record_if_finished_cases g1 (turn g) player') as [->|[_ ->]]. }
  assert (turn g' = if extra then turn g
                    else ((turn g + 1) `mod` num_players g)%nat) as Hcursor.
  { destruct extra; [by subst g'|].
    apply advance_turn_Some in Hg' as [_ ->]. simpl. by rewrite Hn, Hturn. }
  assert (num_players g' = num_players g) as Hn'.
  { destruct extra; [by subst g'|].
    by apply advance_turn_Some in Hg' as [_ ->]. }
  split; [done|]. rewrite Hcursor. clear Hcursor Hg'.
  split; [|split].
  - intros Hroll.
    destruct Hcases as [(_ & _ & ->)|[(_ & _ & _ & ->)|(_ & Hmove)]];
      [by rewrite bool_decide_false|done|].
    destruct Hmove as (ti & g1 & player' & _ & _ & _ & _ & ->).
    by rewrite bool_decide_false.
  - intros Hroll Hwhy. rewrite Hroll in Hcases.
    destruct Hcases as [(_ & _ & ->)|[(Hav & Hsel & _ & _)|(_ & Hmove)]];
      [done| |].
    + destruct Hwhy as [Hno|[ti Hti]]; congruence.
    + by destruct Hmove as (ti & g1 & player' & _ & _ & _ & _ & ->).
  - intros Hroll Hav Hsel. rewrite Hroll in Hcases.
    destruct Hcases as [(Hno & _)|[(_ & _ & _ & ->)|(_ & Hmove)]];
      [congruence|done|].
    destruct Hmove as (ti & g1 & player' & Hti & _). congruence.
Qed.

(** C1, where the code departs from it: the human player 0 of a fresh game
    rolls a 6, has legal moves, and passes; the cursor moves on to
    player 1.  With the same roll and token 0 chosen, the cursor stays. *)
Theorem pass_on_six_advances_cursor :
  turn human_start = 0%nat
  ∧ (∃ player, players human_start !! 0%nat = Some player
       ∧ any_moves_available player 6 = Some true
       ∧ select_token_for_move human_start player 6 [EPass] = Some None)
  ∧ (∃ g', play_iteration human_start [mkInput 6 [EPass]] = Some (g', [])
       ∧ turn g' = 1%nat)
  ∧ (∃ g', play_iteration human_start [mkInput 6 [ENumber 0]] = Some (g', [])
       ∧ turn g' = 0%nat).
Proof.
  split; [reflexivity|]. split; [|split].
  - eexists. split; [reflexivity|]. split; vm_compute; reflexivity.
  - eexists. split; [vm_compute; reflexivity|reflexivity].
  - eexists. split; [vm_compute; reflexivity|reflexivity].
Qed.

(** * The automated policy *)

(** Step 1 of the heuristic does what it looks for: a legal token already
    in the stretch that would land on the final index is chosen first. *)
Lemma cpu_select_stretch_finisher (g : Game) (player : Player) (roll : Z)
    (movable : list (nat * Token)) (i : nat) (t : Token) :
  (i, t) ∈ movable → finishes_in_stretch roll t = true →
  ∃ j t', cpu_select g player roll movable = Some (Some j)
    ∧ (j, t') ∈ movable ∧ finishes_in_stretch roll t' = true.
Proof.
  intros Hin Hfin. unfold cpu_select.
  destruct (find _ movable) as [[j t']|] eqn:Hfind.
  - apply find_some in Hfind as [Hj Hf]. exists j, t'.
    split; [done|]. split; [by apply list_elem_of_In|done].
  - apply list_elem_of_In in Hin.
    pose proof (find_none _ _ Hfind _ Hin) as Hno. simpl in Hno. congruence.
Qed.

Lemma cpu_dilemma_reachable : reachable cpu_dilemma.
Proof.
  exists 2%nat, (Some [true; true]). eexists. split; [reflexivity|].
  apply (run_moves_legal cpu_dilemma_script _ _ _ (legal_moves_refl _)).
  vm_compute. reflexivity.
Qed.

(** C2, where the code departs from it: with a 6, token 0 on the entry
    square would enter the stretch exactly on the final index and finish,
    token 1 would capture on square 7; the policy returns token 1. *)
Theorem cpu_prefers_capture_to_track_finish :
  players cpu_dilemma !! 0%nat = Some cpu_dilemma_player
  ∧ get_token cpu_dilemma 1 0 = Some (example_token 1 0 7)
  ∧ movable_tokens cpu_dilemma_player 6 =
      Some [(0%nat, example_token 0 0 51); (1%nat, example_token 0 1 1);
            (2%nat, example_token 0 2 (-1)); (3%nat, example_token 0 3 (-1))]
  ∧ (move_token cpu_dilemma 0 0 6 ≫= λ g', get_token g' 0 0)
      = Some (mkToken 0 0 final_index true)
  ∧ (move_token cpu_dilemma 0 1 6 ≫= λ g', get_token g' 1 0)
      = Some (example_token 1 0 (-1))
  ∧ select_token_for_move cpu_dilemma cpu_dilemma_player 6 [] = Some (Some 1%nat).
Proof. repeat split; vm_compute; reflexivity. Qed.

(** * Errors of the geometry functions *)

Lemma START_SQUARE_None (p : nat) : START_SQUARE !! p = None ↔ (4 ≤ p)%nat.
Proof.
  rewrite START_SQUARE_lookup.
  do 4 (destruct p as [|p]; [split; [done|lia]|]). split; [lia|done].
Qed.

(** X1: the only exception the geometry and legality functions raise is the
    [KeyError] for a player index outside 0..3, and only where the
    dictionaries are consulted: on a track square for the distance and for
    an unfinished token's legality, on a track square that is not globally
    safe for the safety test.  Without a player index the safety test never
    raises. *)
Theorem geometry_KeyError (p : nat) (pos : Z) (player : Player) (token : Token)
    (roll : Z) :
  (local_distance_to_home_entry p pos = None ↔
     0 <= pos < OUTER_TRACK ∧ (4 ≤ p)%nat)
  ∧ (position_is_safe pos (Some p) = None ↔
       0 <= pos < OUTER_TRACK ∧ (pos ∉ SAFE_SQUARES) ∧ (4 ≤ p)%nat)
  ∧ is_Some (position_is_safe pos None)
  ∧ (can_move_token player token roll = None ↔
       finished token = false ∧ 0 <= position token < OUTER_TRACK
       ∧ (4 ≤ idx player)%nat).
Proof.
  assert (∀ q x, local_distance_to_home_entry q x = None ↔
            0 <= x < OUTER_TRACK ∧ (4 ≤ q)%nat) as Hdist.
  { intros q x. unfold local_distance_to_home_entry, HOME_ENTRY.
    rewrite lookup_fmap. unfold OUTER_TRACK.
    destruct (decide (x < 0 ∨ x >= 52)) as [Hoff|Hon].
    { split; [done|lia]. }
    destruct (START_SQUARE !! q) as [s|] eqn:Hs; simpl.
    - apply START_SQUARE_Some in Hs as [Hq _].
      case_decide; (split; [done|lia]).
    - apply START_SQUARE_None in Hs. split; [lia|done]. }
  split; [apply Hdist|]. split; [|split].
  - unfold position_is_safe, OUTER_TRACK.
    destruct (decide (pos < 0 ∨ pos >= 52)) as [Hoff|Hon].
    { split; [done|lia]. }
    destruct (decide (pos ∈ SAFE_SQUARES)) as [Hs|Hs].
    { split; [done|tauto]. }
    destruct (START_SQUARE !! p) as [s|] eqn:Hp; simpl.
    + apply START_SQUARE_Some in Hp as [Hp _]. split; [done|lia].
    + apply START_SQUARE_None in Hp. split; [|done]. intros _.
      split; [lia|done].
  - rewrite position_is_safe_None. by eexists.
  - unfold can_move_token, is_in_yard, OUTER_TRACK in *.
    destruct (finished token); [split; [done|by intros [? _]]|].
    case_bool_decide as Hy; [split; [done|lia]|].
    destruct (decide (0 <= position token < 52)) as [Ht|Ht].
    + specialize (Hdist (idx player) (position token)).
      destruct (local_distance_to_home_entry _ _) as [d|]; simpl.
      * case_decide; (split; [done|]); intros (_ & _ & Hp);
          by pose proof (proj2 Hdist (conj Ht Hp)).
      * split; [|done]. intros _. split; [done|]. by apply Hdist.
    + case_decide; (split; [done|tauto]).
Qed.

(** * The constructor *)

Lemma Game_init_cases (n : nat) (cpu_players : option (list bool)) :
  (Game_init n cpu_players = None ↔
     ¬ (2 ≤ n ≤ 4)%nat
     ∨ ∃ l, cpu_players = Some l ∧ (length l < n)%nat)
  ∧ ∀ g, Game_init n cpu_players = Some g →
      num_players g = n ∧ turn g = 0%nat ∧ winner_order g = []
      ∧ length (players g) = n
      ∧ ∀ i, (i < n)%nat →
          ∃ c, default (replicate n false) cpu_players !! i = Some c
            ∧ players g !! i = Some (Player_init i c).
Proof.
  split.
  - unfold Game_init. case_decide as Hn; [|split; [by left|done]].
    destruct (mapM _ (seq 0 n)) as [ps|] eqn:Hps; simpl.
    + split; [done|]. intros [Hbad|(l & -> & Hl)]; [done|]. simpl in Hps.
      assert (is_Some (mapM (λ i, Player_init i <$> l !! i) (seq 0 n))) as Hs
        by (by eexists).
      apply mapM_is_Some in Hs.
      pose proof (proj1 (Forall_seq _ _ _) Hs (length l) ltac:(lia)) as [x Hx].
      simpl in Hx. by rewrite lookup_ge_None_2 in Hx by lia.
    + split; [|done]. intros _. right.
      apply mapM_None, Exists_exists in Hps as (i & Hi & Hnone).
      apply elem_of_seq in Hi.
      destruct cpu_players as [l|]; simpl in Hnone.
      * exists l. split; [done|].
        destruct (l !! i) eqn:Hli; [done|]. apply lookup_ge_None in Hli. lia.
      * rewrite lookup_replicate_2 in Hnone by lia. done.
  - intros g Hg.
    pose proof (Game_init_spec _ _ _ Hg) as (Hn & Hnum & Hturn & Hwo & Hlen & Hps).
    repeat (split; [done|]). intros i Hi.
    destruct (lookup_lt_is_Some_2 (players g) i ltac:(lia)) as [pl Hpl].
    unfold Game_init in Hg. rewrite decide_True in Hg by done.
    destruct (mapM _ (seq 0 n)) as [ps|] eqn:Hmap; [simpl in Hg|done].
    injection Hg as <-. simpl in *. apply mapM_Some in Hmap.
    destruct (Forall2_lookup_r _ _ _ _ _ Hmap Hpl) as (j & Hj & Hf).
    apply lookup_seq in Hj as [-> _]. simpl in Hf.
    destruct (default (replicate n false) cpu_players !! i) as [c|]; [|done].
    injection Hf as <-. by exists c.
Qed.

(** X2: [Game(num_players, cpu_players)] fails exactly when the number of
    players is outside 2..4 or the flag list is shorter than the roster;
    otherwise it yields [num_players] players whose [idx] is their place,
    each with four tokens in the yard and the flag given for that place,
    the cursor on player 0 and an empty ranking. *)
Theorem Game_init_result (n : nat) (cpu_players : option (list bool)) :
  (Game_init n cpu_players = None ↔
     ¬ (2 ≤ n ≤ 4)%nat
     ∨ ∃ l, cpu_players = Some l ∧ (length l < n)%nat)
  ∧ ∀ g, Game_init n cpu_players = Some g →
      num_players g = n ∧ turn g = 0%nat ∧ winner_order g = []
      ∧ length (players g) = n
      ∧ ∀ i, (i < n)%nat →
          ∃ c, default (replicate n false) cpu_players !! i = Some c
            ∧ players g !! i = Some (Player_init i c).
Proof. apply Game_init_cases. Qed.

(** * The queries of class Player *)

(** X3: when every token satisfies the token invariant, the three queries
    of a player split its fleet: each token is in the yard, in play or
    finished, and in only one of them; and a player with a full fleet has
    finished exactly when its yard and its board are empty. *)
Theorem fleet_partition (pl : Player) :
  Forall token_inv (tokens pl) →
  tokens pl ≡ₚ tokens_in_yard pl ++ tokens_in_play pl ++ tokens_finished pl
  ∧ (length (tokens pl) = TOKENS_PER_PLAYER →
     (all_finished pl = true ↔ tokens_in_yard pl = [] ∧ tokens_in_play pl = [])).
Proof.
  intros Hinv.
  assert (tokens pl ≡ₚ
          tokens_in_yard pl ++ tokens_in_play pl ++ tokens_finished pl) as Hperm.
  { unfold tokens_in_yard, tokens_in_play, tokens_finished.
    induction Hinv as [|t ts [Hfin Hyard] _ IH]; [done|].
    unfold is_in_yard in *.
    destruct (decide (position t = -1)) as [Hy|Hy].
    - specialize (Hyard Hy).
      rewrite (filter_cons_True (λ t, bool_decide _ = true))
        by (by apply bool_decide_eq_true).
      rewrite (filter_cons_False (λ t, _ ∧ _))
        by (rewrite bool_decide_eq_false; tauto).
      rewrite (filter_cons_False (λ t, finished t = true)) by congruence.
      simpl. by f_equiv.
    - rewrite (filter_cons_False (λ t, bool_decide _ = true))
        by (by rewrite bool_decide_eq_true).
      destruct (finished t) eqn:Hf.
      + rewrite (filter_cons_False (λ t, _ ∧ _)) by (rewrite Hf; intros [_ ?]; done).
        rewrite (filter_cons_True (λ t, finished t = true)) by done.
        rewrite IH at 1. rewrite !app_assoc. apply Permutation_middle.
      + rewrite (filter_cons_True (λ t, _ ∧ _))
          by (by rewrite bool_decide_eq_false).
        rewrite (filter_cons_False (λ t, finished t = true)) by congruence.
        rewrite IH at 1. apply Permutation_middle. }
  split; [done|]. intros Hfull.
  apply Permutation_length in Hperm. rewrite !length_app, Hfull in Hperm.
  unfold all_finished. rewrite bool_decide_eq_true. split.
  - intros Hall. rewrite Hall in Hperm.
    split; apply length_zero_iff_nil; lia.
  - intros [Hy Hp]. rewrite Hy, Hp in Hperm. simpl in Hperm. lia.
Qed.

Lemma fleet_partition_witness :
  tokens capture_opponent ≡ₚ
    tokens_in_yard capture_opponent ++ tokens_in_play capture_opponent
    ++ tokens_finished capture_opponent.
Proof.
  apply (fleet_partition capture_opponent).
  repeat constructor; simpl; congruence.
Defined.

(** * The legal set and the choice of a token *)

Lemma movable_from_spec (player : Player) (roll : Z) (ts : list Token)
    (i : nat) (l : list (nat * Token)) :
  movable_from player roll i ts = Some l →
  ∀ j t, (j, t) ∈ l ↔
    ∃ k, j = (i + k)%nat ∧ ts !! k = Some t
         ∧ can_move_token player t roll = Some true.
Proof.
  revert i l. induction ts as [|t0 ts IH]; intros i l; simpl.
  { intros [= <-] j t. split; [by intros ?%elem_of_nil|by intros (k & _ & ? & _)]. }
  destruct (can_move_token player t0 roll) as [b|] eqn:Hb; [simpl|done].
  destruct (movable_from player roll (S i) ts) as [rest|] eqn:Hrest; [simpl|done].
  intros [= <-] j t. specialize (IH _ _ Hrest j t).
  assert ((j, t) ∈ rest ↔
          ∃ k, j = (i + S k)%nat ∧ ts !! k = Some t
               ∧ can_move_token player t roll = Some true) as IH'.
  { rewrite IH. split; intros (k & -> & Hk); exists k; (split; [lia|done]). }
  clear IH. split.
  - intros Hin.
    assert ((j, t) = (i, t0) ∧ b = true ∨ (j, t) ∈ rest) as [[[= -> ->] ->]|Hr].
    { destruct b; [|by right].
      apply elem_of_cons in Hin as [->|Hin]; [by left|by right]. }
    + exists 0%nat. split; [lia|done].
    + apply IH' in Hr as (k & -> & Hk & Hlegal). by exists (S k).
  - intros ([|k] & -> & Hk & Hlegal); simpl in Hk.
    + injection Hk as ->. rewrite Hlegal in Hb. injection Hb as <-.
      rewrite Nat.add_0_r. by left.
    + assert ((i + S k, t)%nat ∈ rest) as Hr by (apply IH'; by exists k).
      destruct b; [by right|done].
Qed.

Lemma movable_tokens_spec (player : Player) (roll : Z) (l : list (nat * Token)) :
  movable_tokens player roll = Some l →
  ∀ j t, (j, t) ∈ l ↔
    tokens player !! j = Some t ∧ can_move_token player t roll = Some true.
Proof.
  intros Hl j t. rewrite (movable_from_spec _ _ _ _ _ Hl). split.
  - by intros (k & -> & Hk).
  - intros [Hk Hlegal]. by exists j.
Qed.

Lemma any_moves_movable_from (player : Player) (roll : Z) (ts : list Token)
    (i : nat) :
  (any_moves_available_in player roll ts = Some false ↔
     movable_from player roll i ts = Some [])
  ∧ ∀ l, movable_from player roll i ts = Some l →
      any_moves_available_in player roll ts = Some (bool_decide (l ≠ [])).
Proof.
  revert i. induction ts as [|t ts IH]; intros i; simpl.
  { split; [done|]. by intros l [= <-]. }
  destruct (IH (S i)) as [IHf IHl].
  destruct (can_move_token player t roll) as [[|]|]; simpl; [| |done].
  - split.
    + split; [done|].
      by destruct (movable_from player roll (S i) ts).
    + intros l.
      destruct (movable_from player roll (S i) ts); simpl; [|done].
      by intros [= <-].
  - split.
    + rewrite IHf.
      destruct (movable_from player roll (S i) ts); simpl; [|done].
      split; by intros [= ->].
    + intros l.
      destruct (movable_from player roll (S i) ts) as [rest|]; simpl; [|done].
      intros [= <-]. by apply IHl.
Qed.

(** X4: [any_moves_available] answers whether the legal set of
    [select_token_for_move] is non-empty: it says no exactly when that set
    is empty, and whenever the set can be computed it says whether the set
    has an element. *)
Theorem any_moves_available_iff_movable (player : Player) (roll : Z) :
  (any_moves_available player roll = Some false ↔
     movable_tokens player roll = Some [])
  ∧ ∀ l, movable_tokens player roll = Some l →
      any_moves_available player roll = Some (bool_decide (l ≠ [])).
Proof. apply any_moves_movable_from. Qed.

Lemma first_capturing_Some (g : Game) (player : Player) (roll : Z)
    (movable : list (nat * Token)) (i : nat) :
  first_capturing g player roll movable = Some (Some i) →
  ∃ t dest, (i, t) ∈ movable
    ∧ preview_dest player t roll = Some dest
    ∧ dest < OUTER_TRACK
    ∧ position_is_safe dest (Some (idx player)) = Some false
    ∧ opponent_on (players g) (idx player) dest = true.
Proof.
  induction movable as [|[j t] rest IH]; simpl; [done|].
  destruct (preview_dest player t roll) as [dest|] eqn:Hdest; [simpl|done].
  destruct (decide (dest < OUTER_TRACK)) as [Hlt|Hge]; simpl.
  - destruct (position_is_safe dest (Some (idx player))) as [safe|] eqn:Hsafe;
      [simpl|done].
    destruct (negb safe && opponent_on (players g) (idx player) dest) eqn:Hhit.
    + intros [= <-]. apply andb_true_iff in Hhit as [Hns Hopp].
      apply negb_true_iff in Hns as ->. exists t, dest.
      split; [by left|done].
    + intros H. destruct (IH H) as (t' & d' & Hin & Hrest).
      exists t', d'. split; [by right|done].
  - intros H. destruct (IH H) as (t' & d' & Hin & Hrest).
    exists t', d'. split; [by right|done].
Qed.

Lemma insert_desc_Permutation (x : nat * Token) (l : list (nat * Token)) :
  insert_desc x l ≡ₚ x :: l.
Proof.
  induction l as [|y l IH]; simpl; [done|].
  case_decide; [|done]. rewrite IH. apply Permutation_swap.
Qed.

Lemma sort_desc_Permutation (l : list (nat * Token)) : sort_desc l ≡ₚ l.
Proof.
  induction l as [|x l IH]; simpl; [done|].
  rewrite insert_desc_Permutation. by f_equiv.
Qed.

Lemma head_sort_desc_cons (x : nat * Token) (l : list (nat * Token)) :
  head (sort_desc (x :: l)) =
    match head (sort_desc l) with
    | None => Some x
    | Some y => if decide (progress_key y > progress_key x)
                then Some y else Some x
    end.
Proof.
  simpl. destruct (sort_desc l) as [|y l']; simpl; [done|]. by case_decide.
Qed.

(** X5: the sort of step 4 followed by [movable[0]] picks the first token of
    the list whose key is the highest: every token before it has a strictly
    lower key, every token after it a key that is not higher. *)
Theorem head_sort_desc_first_max (l : list (nat * Token)) (m : nat * Token) :
  head (sort_desc l) = Some m →
  ∃ l1 l2, l = l1 ++ m :: l2
    ∧ Forall (λ y, progress_key y < progress_key m) l1
    ∧ Forall (λ y, progress_key y <= progress_key m) l2.
Proof.
  revert m. induction l as [|x l IH]; intros m; [done|].
  rewrite head_sort_desc_cons.
  destruct (head (sort_desc l)) as [y|] eqn:Hhead.
  - destruct (IH y eq_refl) as (l1 & l2 & -> & Hl1 & Hl2).
    case_decide as Hgt; intros [= <-].
    + exists (x :: l1), l2. split; [done|]. split; [|done].
      constructor; [lia|done].
    + exists [], (l1 ++ y :: l2). split; [done|]. split; [constructor|].
      apply Forall_app. split.
      * eapply Forall_impl; [exact Hl1|]. simpl. intros; lia.
      * constructor; [lia|]. eapply Forall_impl; [exact Hl2|].
        simpl. intros; lia.
  - intros [= <-].
    assert (l = []) as ->.
    { apply Permutation_nil_r. rewrite <- (sort_desc_Permutation l).
      by destruct (sort_desc l). }
    exists [], []. by repeat constructor.
Qed.

Lemma head_sort_desc_first_max_witness :
  ∃ l1 l2,
    [(0%nat, example_token 0 0 3); (1%nat, example_token 0 1 9);
     (2%nat, example_token 0 2 9)]
    = l1 ++ (1%nat, example_token 0 1 9) :: l2
    ∧ Forall (λ y, progress_key y < 9) l1
    ∧ Forall (λ y, progress_key y <= 9) l2.
Proof.
  apply (head_sort_desc_first_max
           [(0%nat, example_token 0 0 3); (1%nat, example_token 0 1 9);
            (2%nat, example_token 0 2 9)] (1%nat, example_token 0 1 9)).
  reflexivity.
Defined.

Lemma cpu_select_in_movable (g : Game) (player : Player) (roll : Z)
    (movable : list (nat * Token)) (r : option nat) :
  cpu_select g player roll movable = Some r →
  ∃ i t, r = Some i ∧ (i, t) ∈ movable.
Proof.
  unfold cpu_select.
  destruct (find _ movable) as [[j t]|] eqn:Hfin.
  { intros [= <-]. apply find_some in Hfin as [Hin _].
    exists j, t. split; [done|]. by apply list_elem_of_In. }
  destruct (first_capturing g player roll movable) as [[i|]|] eqn:Hcap;
    [simpl| |done].
  { intros [= <-]. apply first_capturing_Some in Hcap as (t & _ & Hin & _).
    by exists i, t. }
  simpl. destruct (find (λ x, is_in_yard x.2) movable) as [[j t]|] eqn:Hyard.
  { intros [= <-]. apply find_some in Hyard as [Hin _].
    exists j, t. split; [done|]. by apply list_elem_of_In. }
  destruct (head (sort_desc movable)) as [[j t]|] eqn:Hhead; [simpl|done].
  intros [= <-]. exists j, t. split; [done|].
  rewrite <- (sort_desc_Permutation movable).
  destruct (sort_desc movable); [done|]. injection Hhead as ->. by left.
Qed.

Lemma human_select_legal (player : Player) (roll : Z) (entries : list Entry)
    (ti : nat) :
  human_select player roll entries = Some (Some ti) →
  (ti < TOKENS_PER_PLAYER)%nat
  ∧ ∃ t, tokens player !! ti = Some t
         ∧ can_move_token player t roll = Some true.
Proof.
  induction entries as [|[|ci| |] rest IH]; simpl; [done..| |done|done].
  case_decide as Hci; [done|].
  destruct (tokens player !! ci) as [t|] eqn:Ht; [simpl|done].
  destruct (can_move_token player t roll) as [[|]|] eqn:Hlegal; [simpl| |done].
  - intros [= <-]. split; [lia|]. by exists t.
  - done.
Qed.

Lemma select_token_for_move_spec (g : Game) (player : Player) (roll : Z)
    (entries : list Entry) (r : option nat) :
  select_token_for_move g player roll entries = Some r →
  (∀ ti, r = Some ti →
     ∃ t, tokens player !! ti = Some t
          ∧ can_move_token player t roll = Some true)
  ∧ (is_cpu player = true → r = None →
     movable_tokens player roll = Some []).
Proof.
  unfold select_token_for_move.
  destruct (movable_tokens player roll) as [movable|] eqn:Hmov; [simpl|done].
  destruct movable as [|x movable].
  { intros [= <-]. split; [done|]. done. }
  destruct (is_cpu player).
  - intros Hsel. apply cpu_select_in_movable in Hsel as (i & t & -> & Hin).
    split; [|done]. intros ti [= <-]. exists t.
    by apply (movable_tokens_spec _ _ _ Hmov).
  - destruct (mapM _ _); [simpl|done]. intros Hsel.
    split; [|done]. intros ti ->.
    by apply human_select_legal in Hsel as [_ Ht].
Qed.

(** X6: whatever [select_token_for_move] returns for a human or an
    automated player, a returned token is a token of that player that
    [can_move_token] accepts for this roll; and an automated player is
    never given [None] while its legal set is non-empty. *)
Theorem select_token_for_move_legal (g : Game) (player : Player) (roll : Z)
    (entries : list Entry) (r : option nat) :
  select_token_for_move g player roll entries = Some r →
  (∀ ti, r = Some ti →
     ∃ t, tokens player !! ti = Some t
          ∧ can_move_token player t roll = Some true)
  ∧ (is_cpu player = true → r = None →
     movable_tokens player roll = Some []).
Proof. apply select_token_for_move_spec. Qed.

Lemma select_token_for_move_legal_witness :
  ∃ t, tokens cpu_dilemma_player !! 1%nat = Some t
       ∧ can_move_token cpu_dilemma_player t 6 = Some true.
Proof.
  destruct (select_token_for_move_legal cpu_dilemma cpu_dilemma_player 6 []
              (Some 1%nat)) as [Hlegal _].
  - vm_compute. reflexivity.
  - by apply Hlegal.
Defined.

(** X7: for an automated player the extra turn of a 6 never fails: when
    [take_turn] returns after a roll of 6, the cursor has not moved. *)
Theorem cpu_six_keeps_cursor (g g' : Game) (player : Player) (inp : TurnInput) :
  is_cpu player = true → die inp = 6 →
  take_turn g player inp = Some g' →
  turn g' = turn g.
Proof.
  intros Hcpu Hsix Htt.
  pose proof (take_turn_cursor _ _ _ _ Htt) as (_ & _ & Hstay & _).
  apply Hstay; [done|].
  apply take_turn_cases in Htt as (g2 & extra & _ & Hcases).
  rewrite Hsix in Hcases.
  destruct Hcases as [(Hno & _)|[(Hav & Hsel & _)|(_ & Hmove)]].
  - by left.
  - apply select_token_for_move_spec in Hsel as [_ Hnone].
    specialize (Hnone Hcpu eq_refl).
    apply (proj1 (any_moves_movable_from _ _ _ 0%nat)) in Hnone.
    unfold any_moves_available in Hav. congruence.
  - destruct Hmove as (ti & _ & _ & Hti & _). right. by exists ti.
Qed.

Lemma cpu_six_keeps_cursor_witness :
  ∃ g', take_turn cpu_dilemma cpu_dilemma_player (mkInput 6 []) = Some g'
        ∧ turn g' = turn cpu_dilemma.
Proof.
  destruct (take_turn cpu_dilemma cpu_dilemma_player (mkInput 6 []))
    as [g'|] eqn:Htt; [|by vm_compute in Htt].
  exists g'. split; [done|].
  by apply (cpu_six_keeps_cursor cpu_dilemma g' cpu_dilemma_player (mkInput 6 [])).
Defined.

(** * Where a move lands *)

Lemma roster_shape_store_token (g : Game) (pi ti : nat) (t : Token) :
  roster_shape (store_token g pi ti t) = roster_shape g.
Proof.
  unfold roster_shape, store_token. simpl. apply list_eq. intros j.
  rewrite !list_lookup_fmap. destruct (decide (pi = j)) as [<-|Hne].
  - rewrite list_lookup_alter_eq.
    destruct (players g !! pi); [simpl|done]. by rewrite length_insert.
  - by rewrite list_lookup_alter_ne.
Qed.

Lemma roster_shape_capture_all (g : Game) (m : nat) (pos : Z) :
  roster_shape (capture_all m pos g) = roster_shape g.
Proof.
  unfold roster_shape, capture_all. simpl. rewrite <- list_fmap_compose.
  apply list_fmap_ext. intros j pl _. simpl. unfold capture_player.
  case_decide; [done|]. simpl. by rewrite length_fmap.
Qed.

Lemma move_token_roster_shape (g g' : Game) (pi ti : nat) (roll : Z) :
  move_token g pi ti roll = Some g' → roster_shape g' = roster_shape g.
Proof.
  rewrite move_token_factor.
  destruct (players g !! pi) as [player|]; [simpl|done].
  destruct (tokens player !! ti) as [token|]; [simpl|done].
  destruct (token_after_move _ _ _) as [[token' [|]]|]; [simpl| |done].
  - intros Hcap. apply handle_capture_cases in Hcap as [->|(_ & _ & ->)].
    + apply roster_shape_store_token.
    + by rewrite roster_shape_capture_all, roster_shape_store_token.
  - intros [= <-]. apply roster_shape_store_token.
Qed.

Lemma token_after_move_ids (player : Player) (token token' : Token)
    (roll : Z) (check : bool) :
  token_after_move player token roll = Some (token', check) →
  player_idx token' = player_idx token ∧ token_idx token' = token_idx token.
Proof.
  unfold token_after_move. destruct (is_in_yard token).
  { destruct (START_SQUARE !! idx player); [simpl|done]. by intros [= <- _]. }
  case_decide.
  { destruct (local_distance_to_home_entry _ _); [simpl|done].
    repeat case_decide; by intros [= <- _]. }
  repeat case_decide; by intros [= <- _].
Qed.

Lemma capture_token_ids (pos : Z) (t : Token) :
  player_idx (capture_token pos t) = player_idx t
  ∧ token_idx (capture_token pos t) = token_idx t.
Proof. by destruct (capture_token_cases pos t) as [[-> _]|[-> _]]. Qed.

(** X8: a move touches nothing but coordinates and finished flags: the
    roster keeps its players, their [idx], their automation flags and the
    size of every fleet, every token keeps its owner and its number, and
    the cursor, the number of players and the ranking are unchanged. *)
Theorem move_token_frame (g g' : Game) (pi ti : nat) (roll : Z) :
  move_token g pi ti roll = Some g' →
  roster_shape g' = roster_shape g
  ∧ num_players g' = num_players g ∧ turn g' = turn g
  ∧ winner_order g' = winner_order g
  ∧ ∀ pj tj t, get_token g pj tj = Some t →
      ∃ t', get_token g' pj tj = Some t'
        ∧ player_idx t' = player_idx t ∧ token_idx t' = token_idx t.
Proof.
  intros Hmv. split; [by eapply move_token_roster_shape|].
  pose proof (move_token_roster _ _ _ _ _ Hmv) as (_ & Hn & Hturn & Hwo).
  repeat (split; [done|]).
  intros pj tj t Hget.
  destruct (players g !! pi) as [player|] eqn:Hpl;
    [|by rewrite move_token_factor, Hpl in Hmv].
  destruct (tokens player !! ti) as [token|] eqn:Ht;
    [|rewrite move_token_factor, Hpl in Hmv; simpl in Hmv; by rewrite Ht in Hmv].
  destruct (move_token_effect _ _ _ _ _ _ _ Hpl Ht Hmv)
    as (token' & check & Hafter & Hself & Hothers).
  destruct (decide (pj = pi ∧ tj = ti)) as [[-> ->]|Hne].
  - unfold get_token in Hget. rewrite Hpl in Hget. simpl in Hget.
    rewrite Ht in Hget. injection Hget as <-. exists token'.
    split; [done|]. by eapply token_after_move_ids.
  - rewrite Hothers by (destruct (decide (pj = pi)); [right|left]; tauto).
    unfold get_token in Hget.
    destruct (players g !! pj) as [pl|]; [simpl in *|done].
    rewrite Hget. simpl. eexists. split; [done|].
    destruct (_ && _); [apply capture_token_ids|done].
Qed.

Lemma move_token_frame_witness :
  roster_shape capture_state_after_4 = roster_shape capture_state.
Proof.
  by apply (move_token_frame capture_state capture_state_after_4 0 0 4).
Defined.

Lemma preview_dest_landing (player : Player) (token token' : Token)
    (roll : Z) (check : bool) :
  can_move_token player token roll = Some true →
  token_after_move player token roll = Some (token', check) →
  preview_dest player token roll = Some (position token').
Proof.
  unfold can_move_token, token_after_move, preview_dest, is_in_yard.
  unfold OUTER_TRACK, HOME_STRETCH.
  destruct (finished token); [done|].
  case_bool_decide as Hy.
  { intros _. destruct (START_SQUARE !! idx player); [simpl|done].
    by intros [= <- _]. }
  case_decide.
  { destruct (local_distance_to_home_entry _ _) as [d|]; [simpl|done].
    intros _. repeat case_decide; by intros [= <- _]. }
  case_decide; [|done]. case_bool_decide; [|done]. intros _.
  repeat case_decide; intros [= <- _]; simpl; f_equal; lia.
Qed.

(** X9: the destination that the automated policy previews for a legal
    token is the coordinate on which [move_token] then puts it. *)
Theorem preview_dest_is_landing (g g' : Game) (pi ti : nat) (roll : Z)
    (player : Player) (token token' : Token) :
  players g !! pi = Some player → tokens player !! ti = Some token →
  can_move_token player token roll = Some true →
  move_token g pi ti roll = Some g' →
  get_token g' pi ti = Some token' →
  preview_dest player token roll = Some (position token').
Proof.
  intros Hpl Ht Hlegal Hmv Hget.
  destruct (move_token_effect _ _ _ _ _ _ _ Hpl Ht Hmv)
    as (token0 & check & Hafter & Hself & _).
  rewrite Hself in Hget. injection Hget as <-.
  by eapply preview_dest_landing.
Qed.

Lemma preview_dest_is_landing_witness :
  preview_dest capture_mover (example_token 0 0 1) 4 = Some 5.
Proof.
  by apply (preview_dest_is_landing capture_state capture_state_after_4 0 0 4
              capture_mover (example_token 0 0 1) (example_token 0 0 5)).
Defined.

(** X10: in the stretch the overshoot test of [move_token] and the legality
    test agree.  For a token in the stretch that satisfies the token
    invariant and a roll of at least 1, an illegal move leaves the whole
    state as it was, and a legal move advances the token by exactly the
    roll. *)
Theorem stretch_move_agrees_with_legality (g : Game) (pi ti : nat) (roll : Z)
    (player : Player) (token : Token) :
  players g !! pi = Some player → tokens player !! ti = Some token →
  token_inv token → position token >= OUTER_TRACK → 1 <= roll →
  (can_move_token player token roll = Some false ∧ move_token g pi ti roll = Some g)
  ∨ (can_move_token player token roll = Some true
     ∧ ∃ g' token', move_token g pi ti roll = Some g'
         ∧ get_token g' pi ti = Some token'
         ∧ position token' = position token + roll
         ∧ position token' <= final_index).
Proof.
  intros Hpl Ht [Hfin _] Hpos Hroll.
  unfold move_token, can_move_token, is_in_yard. rewrite Hpl. simpl.
  rewrite Ht. simpl.
  unfold final_index, OUTER_TRACK, HOME_STRETCH in *.
  rewrite bool_decide_false by lia.
  rewrite !(decide_False (P := 0 <= _ < _)) by lia.
  rewrite !decide_True by lia.
  destruct (finished token) eqn:Hf.
  { specialize (Hfin eq_refl). left. split; [done|].
    rewrite decide_False by lia. by rewrite decide_False by lia. }
  case_bool_decide as Hlegal.
  - right. split; [done|].
    destruct (decide (position token - 52 + roll = 6 - 1)) as [He|He].
    + eexists _, _. split; [done|].
      split; [by eapply get_token_store_eq|]. simpl. lia.
    + rewrite decide_True by lia. eexists _, _. split; [done|].
      split; [by eapply get_token_store_eq|]. simpl. lia.
  - left. split; [done|].
    rewrite decide_False by lia. by rewrite decide_False by lia.
Qed.

Lemma stretch_move_agrees_with_legality_witness :
  move_token near_finish 0 0 4 = Some near_finish
  ∧ can_move_token (mkPlayer 0 [example_token 0 0 54; example_token 0 1 (-1);
                                example_token 0 2 (-1); example_token 0 3 (-1)]
                      false) (example_token 0 0 54) 4 = Some false.
Proof.
  assert (token_inv (example_token 0 0 54)) as Hinv by (split; simpl; congruence).
  assert (position (example_token 0 0 54) >= OUTER_TRACK) as Hpos
    by (vm_compute; congruence).
  assert (1 <= 4) as Hroll by lia.
  destruct (stretch_move_agrees_with_legality near_finish 0 0 4 _ _
              eq_refl eq_refl Hinv Hpos Hroll) as [[Hno Hsame]|[Hyes _]].
  - split; [exact Hsame|exact Hno].
  - vm_compute in Hyes. discriminate.
Defined.

Lemma route_index_distance (p : nat) (pos : Z) :
  (p < 4)%nat → 0 <= pos < OUTER_TRACK →
  Spec.distanceToEntry p pos = 51 - route_index (Spec.start p) pos.
Proof.
  intros Hp Hpos. unfold Spec.distanceToEntry, route_index, Spec.on_track.
  unfold OUTER_TRACK, Spec.TRACK_LENGTH in *.
  rewrite !decide_True by lia.
  do 4 (destruct p as [|p];
        [vm_compute (Spec.entry _); vm_compute (Spec.start _);
         repeat case_decide; Z.to_euclidean_division_equations; lia|]).
  lia.
Qed.

(** X11: a legal move with a die value advances the token by exactly the
    roll along its owner's route (start square, once around the track to
    the entry square, then the stretch); a token leaving the yard is put on
    the start square.  So no legal move leaves a token where it was. *)
Theorem legal_move_advances_by_roll (g g' : Game) (pi ti : nat) (roll s : Z)
    (player : Player) (token token' : Token) :
  players g !! pi = Some player → tokens player !! ti = Some token →
  START_SQUARE !! idx player = Some s →
  1 <= roll <= 6 →
  can_move_token player token roll = Some true →
  move_token g pi ti roll = Some g' →
  get_token g' pi ti = Some token' →
  (position token = -1 → position token' = s)
  ∧ (position token ≠ -1 →
       route_index s (position token') = route_index s (position token) + roll)
  ∧ position token' ≠ position token.
Proof.
  intros Hpl Ht Hs Hroll Hlegal Hmv Hget.
  destruct (move_token_effect _ _ _ _ _ _ _ Hpl Ht Hmv)
    as (token0 & check & Hafter & Hself & _).
  rewrite Hself in Hget. injection Hget as <-.
  apply START_SQUARE_Some in Hs as [Hp ->].
  pose proof (start_on_track _ Hp) as Hstart.
  assert (0 <= position token < 52 →
          Spec.distanceToEntry (idx player) (position token)
          = 51 - (position token - Spec.start (idx player)) `mod` 52) as Hdist.
  { intros Hon. rewrite route_index_distance by done.
    unfold route_index, OUTER_TRACK. by rewrite decide_True. }
  revert Hlegal Hafter.
  unfold can_move_token, token_after_move, is_in_yard.
  rewrite START_SQUARE_valid, local_distance_valid by done. simpl.
  unfold route_index. unfold OUTER_TRACK, HOME_STRETCH in *.
  destruct (finished token); [done|].
  case_bool_decide as Hy.
  { intros _ [= <- _]. simpl. split; [done|]. split; [done|lia]. }
  destruct (decide (0 <= position token < 52)) as [Ht52|Ht52].
  - rewrite (Hdist Ht52). clear Hdist.
    case_decide as Hstay.
    + intros _ [= <- _]. simpl.
      pose proof (Z.mod_pos_bound (position token + roll) 52 eq_refl) as Hb.
      rewrite decide_True by lia.
      split; [done|].
      split; [intros _|]; Z.to_euclidean_division_equations; lia.
    + case_bool_decide; [|done]. intros _.
      case_decide; intros [= <- _]; simpl in *;
        rewrite ?decide_False by lia; (split; [done|]);
        (split; [intros _|]); Z.to_euclidean_division_equations; lia.
  - case_decide; [|done]. case_bool_decide; [|done]. intros _.
    repeat case_decide; intros [= <- _]; simpl in *;
      rewrite ?decide_False by lia; try lia;
      (split; [done|]); (split; [intros _; lia|lia]).
Qed.

Lemma legal_move_advances_by_roll_witness :
  route_index 0 5 = route_index 0 1 + 4.
Proof.
  assert (1 <= 4 <= 6) as Hroll by lia.
  destruct (legal_move_advances_by_roll capture_state capture_state_after_4
              0 0 4 0 capture_mover (example_token 0 0 1) (example_token 0 0 5)
              eq_refl eq_refl eq_refl Hroll eq_refl eq_refl eq_refl)
    as (_ & Hadv & _).
  apply Hadv. simpl. lia.
Defined.

(** * Captures in reachable states *)

Lemma roster_shape_lookup (g g' : Game) (pj : nat) (pl' : Player) :
  roster_shape g' = roster_shape g → players g' !! pj = Some pl' →
  ∃ pl, players g !! pj = Some pl ∧ idx pl = idx pl'
        ∧ is_cpu pl = is_cpu pl'
        ∧ length (tokens pl) = length (tokens pl').
Proof.
  intros Hshape Hpl'. apply (f_equal (λ l, l !! pj)) in Hshape.
  unfold roster_shape in Hshape. rewrite !list_lookup_fmap, Hpl' in Hshape.
  destruct (players g !! pj) as [pl|]; [|done].
  injection Hshape as H1 H2 H3. by exists pl.
Qed.

Lemma position_is_safe_true (pos : Z) (p : nat) :
  position_is_safe pos (Some p) = Some true → pos ∈ SAFE_SQUARES.
Proof.
  unfold position_is_safe.
  destruct (decide (pos < 0 ∨ pos >= OUTER_TRACK)); [done|].
  destruct (decide (pos ∈ SAFE_SQUARES)); [done|].
  destruct (START_SQUARE !! p) as [s|] eqn:Hs; [simpl|done].
  intros [= Heq%bool_decide_eq_true]. subst s.
  apply START_SQUARE_Some in Hs as [Hp ->]. by apply start_in_SAFE_SQUARES.
Qed.

(** After a move has landed on a track square, an opposing token can stand
    on that square only if the square is one of [SAFE_SQUARES]. *)
Lemma landing_square_cleared (g g' : Game) (pi ti : nat) (roll : Z)
    (player : Player) (token token' : Token) (pk tk : nat) (plk : Player)
    (x : Token) :
  game_inv g → 0 <= roll →
  players g !! pi = Some player → tokens player !! ti = Some token →
  move_token g pi ti roll = Some g' →
  get_token g' pi ti = Some token' →
  0 <= position token' < OUTER_TRACK →
  players g' !! pk = Some plk → tokens plk !! tk = Some x →
  idx plk ≠ idx player → position x = position token' →
  position token' ∈ SAFE_SQUARES.
Proof.
  intros [Hv Hok] Hroll Hpl Ht Hmv Hself' Hon Hplk Hx Hidx Hpos.
  destruct (move_token_effect _ _ _ _ _ _ _ Hpl Ht Hmv)
    as (token0 & check & Hafter & Hself & Hothers).
  rewrite Hself in Hself'. injection Hself' as ->.
  destruct check; cycle 1.
  { by apply token_after_move_no_check in Hafter. }
  assert (idx player < 4)%nat as Hp by exact (Forall_lookup_1 _ _ _ _ Hv Hpl).
  destruct (roster_shape_lookup g g' pk plk (move_token_roster_shape _ _ _ _ _ Hmv)
              Hplk) as (plk0 & Hplk0 & Hidx0 & _).
  assert (pk ≠ pi) as Hne by (intros ->; congruence).
  assert (get_token g' pk tk = Some x) as Hgetx.
  { unfold get_token. by rewrite Hplk. }
  rewrite (Hothers pk tk (or_introl Hne)), Hplk0 in Hgetx. simpl in Hgetx.
  destruct (tokens plk0 !! tk) as [x0|] eqn:Hx0; [simpl in Hgetx|done].
  injection Hgetx as Hxeq.
  destruct (position_is_safe (position token') (Some (idx player)))
    as [[|]|] eqn:Hsafe.
  - by eapply position_is_safe_true.
  - exfalso. rewrite !bool_decide_true in Hxeq by congruence. simpl in Hxeq.
    assert (token_ok x0) as [Hr0 Hfin0].
    { apply (Forall_tokens_lookup _ g pk tk); [done|].
      unfold get_token. by rewrite Hplk0. }
    unfold final_index, OUTER_TRACK, HOME_STRETCH in *.
    destruct (capture_token_cases (position token') x0)
      as [[Hsame Hwhy]|(Hcap & _)]; rewrite <- Hxeq in Hpos.
    + rewrite Hsame in Hpos.
      destruct Hwhy as [Hf|[Hneg|Hdiff]]; [|lia|done].
      apply Hfin0 in Hf. lia.
    + rewrite Hcap in Hpos. simpl in Hpos. lia.
  - rewrite position_is_safe_valid, position_is_safe_None in Hsafe by done.
    done.
Qed.

Lemma Game_init_in_yard (n : nat) (cpus : option (list bool)) (g : Game)
    (pi ti : nat) (t : Token) :
  Game_init n cpus = Some g → get_token g pi ti = Some t →
  t = Token_init pi ti.
Proof.
  intros (_ & _ & _ & _ & _ & Hps)%Game_init_spec. unfold get_token.
  destruct (players g !! pi) as [pl|] eqn:Hpl; [simpl|done].
  destruct (Hps pi pl Hpl) as [_ [c ->]]. unfold Player_init. cbn [tokens].
  rewrite list_lookup_fmap. intros Ht.
  destruct (seq 0 TOKENS_PER_PLAYER !! ti) as [j|] eqn:Hj; [|done].
  apply lookup_seq in Hj as [-> _]. by injection Ht as <-.
Qed.

Lemma legal_move_no_shared_unsafe (g g' : Game) (pi ti : nat) (roll : Z)
    (player : Player) (token : Token) :
  game_inv g → no_shared_unsafe g →
  players g !! pi = Some player → tokens player !! ti = Some token →
  1 <= roll <= 6 →
  move_token g pi ti roll = Some g' →
  no_shared_unsafe g'.
Proof.
  intros Hinv Hns Hpl Ht Hroll Hmv pj pk plj plk tj tk a b
    Hplj Hplk Ha Hb Hidx Hon Hpos.
  pose proof (move_token_roster_shape _ _ _ _ _ Hmv) as Hshape.
  destruct (move_token_effect _ _ _ _ _ _ _ Hpl Ht Hmv)
    as (token' & check & Hafter & Hself & Hothers).
  destruct (roster_shape_lookup g g' pj plj Hshape Hplj) as (plj0 & Hplj0 & Hij & _).
  destruct (roster_shape_lookup g g' pk plk Hshape Hplk) as (plk0 & Hplk0 & Hik & _).
  assert (get_token g' pj tj = Some a) as Hga by (unfold get_token; by rewrite Hplj).
  assert (get_token g' pk tk = Some b) as Hgb by (unfold get_token; by rewrite Hplk).
  destruct (decide (pj = pi ∧ tj = ti)) as [[-> ->]|Hnj].
  { rewrite Hself in Hga. injection Hga as ->.
    eapply (landing_square_cleared g g' pi ti roll player token a pk tk plk b);
      try done; [lia|congruence]. }
  destruct (decide (pk = pi ∧ tk = ti)) as [[-> ->]|Hnk].
  { rewrite Hself in Hgb. injection Hgb as ->. rewrite <- Hpos.
    eapply (landing_square_cleared g g' pi ti roll player token b pj tj plj a);
      try done; [lia|lia|congruence]. }
  (* neither is the moved token: both stand where they stood *)
  assert (∀ pm tm x plm0, (pm ≠ pi ∨ tm ≠ ti) → players g !! pm = Some plm0 →
            get_token g' pm tm = Some x → 0 <= position x →
            tokens plm0 !! tm = Some x) as Hkeep.
  { intros pm tm x plm0 Hne Hplm0 Hgx Hx0.
    rewrite (Hothers pm tm Hne), Hplm0 in Hgx. simpl in Hgx.
    destruct (tokens plm0 !! tm) as [x0|]; [simpl in Hgx|done].
    injection Hgx as <-. destruct (_ && _); [|done].
    destruct (capture_token_cases (position token') x0)
      as [[-> _]|(Hcap & _)]; [done|].
    rewrite Hcap in Hx0. simpl in Hx0. lia. }
  assert (tokens plj0 !! tj = Some a) as Ha0.
  { apply (Hkeep pj tj a plj0); [|done|done|lia].
    destruct (decide (pj = pi)); [right|left]; tauto. }
  assert (tokens plk0 !! tk = Some b) as Hb0.
  { apply (Hkeep pk tk b plk0); [|done|done|lia].
    destruct (decide (pk = pi)); [right|left]; tauto. }
  eapply (Hns pj pk plj0 plk0 tj tk a b); try done. congruence.
Qed.

Lemma reachable_no_shared_unsafe (g : Game) :
  reachable g → no_shared_unsafe g.
Proof.
  intros (n & cpus & g0 & Hinit & Hmoves).
  pose proof (Game_init_inv _ _ _ Hinit) as Hinv0.
  assert (no_shared_unsafe g0) as Hns0.
  { intros pj pk plj plk tj tk a b Hplj _ Ha _ _ Hon _.
    assert (a = Token_init pj tj) as ->.
    { apply (Game_init_in_yard _ _ _ _ _ _ Hinit).
      unfold get_token. by rewrite Hplj. }
    simpl in Hon. lia. }
  clear Hinit. induction Hmoves
    as [g|g g1 g2 pi ti roll player token Hm IH Hpl Ht Hroll Hlegal Hmv];
    [done|].
  specialize (IH Hinv0 Hns0).
  eapply legal_move_no_shared_unsafe; [|done..].
  by eapply legal_moves_game_inv.
Qed.

(** X12: in every state that legal moves can reach from a fresh game, two
    tokens of different players never stand together on a track square
    that is not one of the eight safe squares. *)
Theorem opponents_never_share_unsafe_square (g : Game) :
  reachable g → no_shared_unsafe g.
Proof. apply reachable_no_shared_unsafe. Qed.

Lemma opponents_never_share_unsafe_square_witness : no_shared_unsafe cpu_dilemma.
Proof.
  apply opponents_never_share_unsafe_square. apply cpu_dilemma_reachable.
Defined.

Lemma opponent_on_true (ps : list Player) (mover : nat) (dest : Z) :
  opponent_on ps mover dest = true →
  ∃ pj tj opp tok, ps !! pj = Some opp ∧ idx opp ≠ mover
    ∧ tokens opp !! tj = Some tok ∧ is_on_board tok = true
    ∧ position tok = dest.
Proof.
  unfold opponent_on. intros (opp & Hopp & Hex)%existsb_exists.
  destruct (decide (idx opp = mover)) as [|Hne]; [done|].
  apply existsb_exists in Hex as (tok & Htok & Hhit).
  apply andb_true_iff in Hhit as [Hboard Hat%bool_decide_eq_true].
  apply list_elem_of_In, list_elem_of_lookup in Hopp as [pj Hpj].
  apply list_elem_of_In, list_elem_of_lookup in Htok as [tj Htj].
  by exists pj, tj, opp, tok.
Qed.

(** X13: step 2 of the automated policy keeps its promise.  When it selects
    a token for a die value, moving that token succeeds and sends at least
    one opposing token, which stood on the board, back to the yard. *)
Theorem first_capturing_captures (g : Game) (pi ti : nat) (roll : Z)
    (player : Player) (movable : list (nat * Token)) :
  players g !! pi = Some player →
  movable_tokens player roll = Some movable →
  first_capturing g player roll movable = Some (Some ti) →
  1 <= roll <= 6 →
  ∃ g' pj tj opp tok,
    move_token g pi ti roll = Some g'
    ∧ players g !! pj = Some opp ∧ idx opp ≠ idx player
    ∧ tokens opp !! tj = Some tok ∧ is_on_board tok = true
    ∧ get_token g' pj tj = Some (set_position tok (-1)).
Proof.
  intros Hpl Hmov Hcap Hroll.
  apply first_capturing_Some in Hcap
    as (t & dest & Hin & Hdest & Hlt & Hunsafe & Hopp).
  apply (movable_tokens_spec _ _ _ Hmov) in Hin as [Ht Hlegal].
  apply opponent_on_true in Hopp as (pj & tj & opp & tok & Hpj & Hidx & Htj & Hboard & Hat).
  assert (0 <= dest) as Hdest0.
  { unfold is_on_board in Hboard.
    apply andb_true_iff in Hboard as [Hge%bool_decide_eq_true _]. lia. }
  assert (pj ≠ pi) as Hne by (intros ->; congruence).
  destruct (token_after_move player t roll) as [[token' check]|] eqn:Hafter.
  2:{ exfalso. revert Hdest Hafter.
      unfold preview_dest, token_after_move.
      destruct (is_in_yard t).
      { destruct (START_SQUARE !! idx player); done. }
      case_decide; [|repeat case_decide; done].
      destruct (local_distance_to_home_entry _ _); [simpl|done].
      repeat case_decide; done. }
  pose proof (preview_dest_landing _ _ _ _ _ Hlegal Hafter) as Hland.
  rewrite Hdest in Hland. injection Hland as ->.
  destruct check; cycle 1.
  { apply token_after_move_no_check in Hafter; [|lia].
    unfold OUTER_TRACK in *. lia. }
  assert (move_token g pi ti roll =
    Some (capture_all (idx player) (position token') (store_token g pi ti token')))
    as Hmv.
  { rewrite move_token_factor, Hpl. simpl. rewrite Ht. simpl.
    rewrite Hafter. simpl. unfold handle_capture.
    rewrite decide_False by lia. by rewrite Hunsafe. }
  eexists _, pj, tj, opp, tok. split; [exact Hmv|].
  repeat (split; [done|]).
  rewrite get_token_capture_all. unfold store_token. simpl.
  rewrite list_lookup_alter_ne by done. rewrite Hpj. simpl.
  rewrite decide_False by done. rewrite Htj. simpl. f_equal.
  unfold capture_token. rewrite Hboard. simpl.
  by rewrite bool_decide_true.
Qed.

Lemma first_capturing_captures_witness :
  ∃ g', move_token cpu_dilemma 0 1 6 = Some g'
        ∧ get_token g' 1 0 = Some (example_token 1 0 (-1)).
Proof.
  assert (1 <= 6 <= 6) as Hroll by lia.
  destruct (first_capturing_captures cpu_dilemma 0 1 6 cpu_dilemma_player
              [(0%nat, example_token 0 0 51); (1%nat, example_token 0 1 1);
               (2%nat, example_token 0 2 (-1)); (3%nat, example_token 0 3 (-1))]
              eq_refl eq_refl eq_refl Hroll)
    as (g' & pj & tj & opp & tok & Hmv & _).
  exists g'. split; [done|].
  vm_compute in Hmv. injection Hmv as <-. reflexivity.
Defined.

(** * The turn loop raises no exception *)

Lemma play_iteration_roster_shape (g g' : Game) (ins ins' : list TurnInput) :
  play_iteration g ins = Some (g', ins') → roster_shape g' = roster_shape g.
Proof.
  unfold play_iteration.
  destruct (players g !! turn g) as [player|]; [simpl|done].
  destruct (all_finished player).
  - destruct (advance_turn _) as [g2|] eqn:Hadv; [simpl|done].
    intros [= <- <-]. apply advance_turn_Some in Hadv as [_ ->].
    by case_decide.
  - destruct ins as [|inp ins0]; [done|].
    destruct (take_turn g player inp) as [g1|] eqn:Htt; [simpl|done].
    intros [= <- <-].
    apply take_turn_cases in Htt as (g2 & extra & Hg' & Hcases).
    assert (roster_shape g2 = roster_shape g) as Hshape.
    { destruct Hcases as [(_ & -> & _)|[(_ & _ & -> & _)|(_ & Hmove)]];
        [done..|].
      destruct Hmove as (ti & g3 & player' & _ & Hmv & _ & -> & _).
      apply move_token_roster_shape in Hmv. rewrite <- Hmv.
      by destruct (record_if_finished_cases g3 (turn g) player') as [->|[_ ->]]. }
    destruct extra; [by subst g1|].
    by apply advance_turn_Some in Hg' as [_ ->].
Qed.

Lemma play_reaches_roster_shape (s s' : Game * list TurnInput) :
  play_reaches s s' → roster_shape s'.1 = roster_shape s.1.
Proof.
  induction 1 as [s|g g1 ins ins1 s2 _ Hit _ IH]; [done|].
  simpl in *. rewrite IH. by eapply play_iteration_roster_shape.
Qed.

Lemma Game_init_roster (n : nat) (cpus : option (list bool)) (g0 g : Game) :
  Game_init n cpus = Some g0 → roster_shape g = roster_shape g0 →
  valid_roster g ∧ full_fleets g.
Proof.
  intros (Hn & _ & _ & _ & _ & Hps)%Game_init_spec Hshape.
  split; apply Forall_lookup; intros pj pl Hpl;
    destruct (roster_shape_lookup g0 g pj pl Hshape Hpl)
      as (pl0 & Hpl0 & Hidx & _ & Hlen);
    destruct (Hps pj pl0 Hpl0) as [Hlt [c ->]].
  - simpl in *. lia.
  - rewrite <- Hlen. unfold Player_init. cbn [tokens].
    by rewrite length_fmap, length_seq.
Qed.

Lemma can_move_token_total (player : Player) (token : Token) (roll : Z) :
  (idx player < 4)%nat → is_Some (can_move_token player token roll).
Proof.
  intros Hp. unfold can_move_token. rewrite local_distance_valid by done.
  simpl. destruct (finished token); [done|].
  destruct (is_in_yard token); [done|]. repeat case_decide; done.
Qed.

Lemma any_moves_available_total (player : Player) (roll : Z) :
  (idx player < 4)%nat → is_Some (any_moves_available player roll).
Proof.
  intros Hp. unfold any_moves_available.
  induction (tokens player) as [|t ts IH]; simpl; [done|].
  destruct (can_move_token_total player t roll Hp) as [[|] ->]; simpl; done.
Qed.

Lemma movable_tokens_total (player : Player) (roll : Z) :
  (idx player < 4)%nat → is_Some (movable_tokens player roll).
Proof.
  intros Hp. unfold movable_tokens. generalize 0%nat.
  induction (tokens player) as [|t ts IH]; intros i; simpl; [done|].
  destruct (can_move_token_total player t roll Hp) as [b ->]. simpl.
  destruct (IH (S i)) as [rest ->]. simpl. done.
Qed.

Lemma first_capturing_total (g : Game) (player : Player) (roll : Z)
    (movable : list (nat * Token)) :
  (idx player < 4)%nat → is_Some (first_capturing g player roll movable).
Proof.
  intros Hp. induction movable as [|[i t] rest IH]; simpl; [done|].
  assert (is_Some (preview_dest player t roll)) as [dest ->].
  { unfold preview_dest.
    rewrite START_SQUARE_valid, local_distance_valid by done. simpl.
    destruct (is_in_yard t); [done|]. repeat case_decide; done. }
  simpl. rewrite position_is_safe_valid, position_is_safe_None by done. simpl.
  case_decide; simpl; [|done]. by destruct (_ && _).
Qed.

Lemma cpu_select_total (g : Game) (player : Player) (roll : Z)
    (movable : list (nat * Token)) :
  (idx player < 4)%nat → movable ≠ [] →
  is_Some (cpu_select g player roll movable).
Proof.
  intros Hp Hne. unfold cpu_select.
  destruct (find _ movable); [done|].
  destruct (first_capturing_total g player roll movable Hp) as [[i|] ->];
    simpl; [done|].
  destruct (find _ movable); [done|].
  destruct (head (sort_desc movable)) as [x|] eqn:Hhead; [done|].
  exfalso. apply Hne, Permutation_nil_r.
  rewrite <- (sort_desc_Permutation movable). by destruct (sort_desc movable).
Qed.

Lemma human_select_total (player : Player) (roll : Z) (pre post : list Entry) :
  (idx player < 4)%nat → length (tokens player) = TOKENS_PER_PLAYER →
  (ENotDecimal ∉ pre) →
  is_Some (human_select player roll (pre ++ EPass :: post)).
Proof.
  intros Hp Hlen. induction pre as [|e pre IH]; [done|].
  intros [Hne Hpre]%not_elem_of_cons. specialize (IH Hpre).
  destruct e as [|ci| |]; simpl; [done| |done|done].
  case_decide as Hci; [done|].
  destruct (lookup_lt_is_Some_2 (tokens player) ci ltac:(lia)) as [t ->]. simpl.
  destruct (can_move_token_total player t roll Hp) as [[|] ->]; simpl; done.
Qed.

(** X14: when the turn loop raises no exception.  In every state the loop
    reaches from a constructed game, an iteration that has a roll to read
    returns, provided that the lines a human at the cursor types reach a
    pass and that no line before the pass is one that [isdigit()] accepts
    and [int()] rejects (the [ValueError] of line 355); an automated player
    needs nothing. *)
Theorem play_iteration_no_exception (n : nat) (cpus : option (list bool))
    (g0 g : Game) (ins0 ins : list TurnInput) (inp : TurnInput) :
  Game_init n cpus = Some g0 →
  play_reaches (g0, ins0) (g, inp :: ins) →
  (∀ player, players g !! turn g = Some player → is_cpu player = false →
     ∃ pre post, typed inp = pre ++ EPass :: post ∧ (ENotDecimal ∉ pre)) →
  is_Some (play_iteration g (inp :: ins)).
Proof.
  intros Hinit Hreach Hhuman.
  destruct (play_reaches_ranking _ _ Hreach (Game_init_ranking _ _ _ Hinit))
    as ((Hlen & Hturn & _) & _). simpl in *.
  destruct (Game_init_roster _ _ _ g Hinit (play_reaches_roster_shape _ _ Hreach))
    as [Hv Hfull].
  assert (num_players g ≠ 0%nat) as Hn0 by lia.
  destruct (lookup_lt_is_Some_2 (players g) (turn g) ltac:(lia)) as [player Hpl].
  assert (idx player < 4)%nat as Hp by exact (Forall_lookup_1 _ _ _ _ Hv Hpl).
  assert (length (tokens player) = TOKENS_PER_PLAYER) as Hfleet
    by exact (Forall_lookup_1 _ _ _ _ Hfull Hpl).
  assert (∀ g2 : Game, num_players g2 = num_players g →
            is_Some (advance_turn g2)) as Hadv.
  { intros g2 Hn2. unfold advance_turn. by rewrite decide_False by congruence. }
  unfold play_iteration. rewrite Hpl. simpl.
  destruct (all_finished player).
  { destruct (Hadv (if decide (turn g ∈ winner_order g) then g
                    else append_winner g (turn g))) as [g2 ->];
      [by case_decide|done]. }
  assert (is_Some (take_turn g player inp)) as [g' ->]; [|done].
  unfold take_turn.
  destruct (any_moves_available_total player (die inp) Hp) as [avail ->]. simpl.
  destruct avail; simpl; cycle 1.
  { destruct (bool_decide (die inp = 6)); [done|]. by apply Hadv. }
  destruct (select_token_for_move g player (die inp) (typed inp))
    as [r|] eqn:Hsel; cycle 1.
  { exfalso. revert Hsel. unfold select_token_for_move.
    destruct (movable_tokens_total player (die inp) Hp) as [movable ->]. simpl.
    destruct movable as [|x movable]; [done|].
    destruct (is_cpu player) eqn:Hcpu.
    - by destruct (cpu_select_total g player (die inp) (x :: movable) Hp) as [r ->].
    - assert (is_Some (mapM (λ t, can_move_token player t (die inp))
                         (tokens player))) as [flags ->].
      { apply mapM_is_Some, Forall_forall. intros t _.
        by apply can_move_token_total. }
      simpl.
      destruct (Hhuman player Hpl Hcpu) as (pre & post & -> & Hpre).
      by destruct (human_select_total player (die inp) pre post Hp Hfleet Hpre)
        as [r ->]. }
  simpl. destruct r as [ti|]; [|by apply Hadv].
  apply select_token_for_move_spec in Hsel as [Hlegal _].
  destruct (Hlegal ti eq_refl) as (t & Ht & _).
  destruct (move_token_total g (turn g) ti (die inp) _ _ Hpl Ht Hp) as [g1 Hmv].
  rewrite Hmv. simpl.
  pose proof (move_token_roster_shape _ _ _ _ _ Hmv) as Hshape.
  pose proof (move_token_roster _ _ _ _ _ Hmv) as (_ & Hn1 & _).
  assert (is_Some (players g1 !! turn g)) as [player' ->].
  { apply lookup_lt_is_Some.
    apply (f_equal length) in Hshape. unfold roster_shape in Hshape.
    rewrite !length_fmap in Hshape. lia. }
  simpl. destruct (bool_decide (die inp = 6)); [done|].
  apply Hadv.
  by destruct (record_if_finished_cases g1 (turn g) player') as [->|[_ ->]].
Qed.

Lemma play_iteration_no_exception_witness :
  is_Some (play_iteration human_start [mkInput 6 [EOther; ENumber 7; EPass]]).
Proof.
  apply (play_iteration_no_exception 2 None human_start human_start
           [mkInput 6 [EOther; ENumber 7; EPass]] []).
  - reflexivity.
  - apply play_reaches_refl.
  - intros player _ _. exists [EOther; ENumber 7%nat], []. split; [reflexivity|].
    intros Hin. by repeat apply elem_of_cons in Hin as [?|Hin];
      [..|apply elem_of_nil in Hin].
Defined.

(** X21: the prompt raises on a digit line that is not decimal.  A human at
    the cursor who has a legal move and whose first line is one that
    [isdigit()] accepts and [int()] rejects ends the run: [int(choice)]
    (line 355) raises [ValueError], and nothing in [play] catches it. *)
Theorem prompt_ValueError (g : Game) (player : Player) (inp : TurnInput)
    (ins : list TurnInput) (rest : list Entry) :
  players g !! turn g = Some player →
  is_cpu player = false →
  all_finished player = false →
  any_moves_available player (die inp) = Some true →
  typed inp = ENotDecimal :: rest →
  play_iteration g (inp :: ins) = None
  ∧ ∀ fuel, loop_cond g = true → play fuel g (inp :: ins) = None.
Proof.
  intros Hpl Hcpu Hfin Havail Htyped.
  assert (play_iteration g (inp :: ins) = None) as Hit.
  { unfold play_iteration. rewrite Hpl. simpl. rewrite Hfin.
    unfold take_turn. rewrite Havail. simpl.
    unfold select_token_for_move.
    destruct (movable_tokens player (die inp)) as [movable|] eqn:Hm; [simpl|done].
    destruct movable as [|x movable].
    { pose proof (proj2 (any_moves_movable_from player (die inp)
                           (tokens player) 0) _ Hm) as Hnone.
      unfold any_moves_available in Havail. rewrite Havail in Hnone. done. }
    rewrite Hcpu, Htyped.
    by destruct (mapM _ (tokens player)). }
  split; [done|].
  intros fuel Hcond. unfold play.
  destruct fuel as [|fuel]; simpl; rewrite Hcond; [done|].
  by rewrite Hit.
Qed.

Lemma prompt_ValueError_witness :
  play_iteration human_start [mkInput 6 [ENotDecimal; EPass]] = None
  ∧ play 1000 human_start [mkInput 6 [ENotDecimal; EPass]] = None.
Proof.
  destruct (prompt_ValueError human_start
              (default (Player_init 0 false) (players human_start !! 0%nat))
              (mkInput 6 [ENotDecimal; EPass]) [] [EPass]) as [Hit Hplay];
    [reflexivity..|].
  split; [exact Hit|]. by apply Hplay.
Defined.

(** * The turn loop makes legal moves only *)

Lemma handle_capture_players_only (g h : Game) (player : Player) (tok : Token) :
  players h = players g →
  players <$> handle_capture h player tok = players <$> handle_capture g player tok.
Proof.
  intros Hps. unfold handle_capture, capture_all.
  case_decide; simpl; [by rewrite Hps|].
  destruct (position_is_safe _ _) as [[|]|]; simpl; by rewrite ?Hps.
Qed.

Lemma move_token_players_only (g h : Game) (pi ti : nat) (roll : Z) :
  players h = players g →
  players <$> move_token h pi ti roll = players <$> move_token g pi ti roll.
Proof.
  intros Hps. rewrite !move_token_factor, Hps.
  destruct (players g !! pi) as [player|]; [simpl|done].
  destruct (tokens player !! ti) as [token|]; [simpl|done].
  destruct (token_after_move player token roll) as [[token' check]|];
    [simpl|done].
  assert (players (store_token h pi ti token')
          = players (store_token g pi ti token')) as Hstore.
  { unfold store_token. simpl. by rewrite Hps. }
  destruct check; [by apply handle_capture_players_only|].
  cbn [fmap option_fmap option_map]. by rewrite Hstore.
Qed.

Lemma play_iteration_legal (g g1 : Game) (ins ins1 : list TurnInput) :
  valid_dice ins →
  play_iteration g ins = Some (g1, ins1) →
  valid_dice ins1
  ∧ (players g1 = players g
     ∨ ∃ ti roll player token g2,
         players g !! turn g = Some player ∧ tokens player !! ti = Some token
         ∧ 1 <= roll <= 6
         ∧ can_move_token player token roll = Some true
         ∧ move_token g (turn g) ti roll = Some g2
         ∧ players g1 = players g2).
Proof.
  intros Hdice. unfold play_iteration.
  destruct (players g !! turn g) as [player|] eqn:Hpl; [simpl|done].
  destruct (all_finished player).
  { destruct (advance_turn _) as [g2|] eqn:Hadv; [simpl|done].
    intros [= <- <-]. split; [done|]. left.
    apply advance_turn_Some in Hadv as [_ ->]. by case_decide. }
  destruct ins as [|inp ins0]; [done|].
  apply Forall_cons in Hdice as [Hroll Hdice].
  destruct (take_turn g player inp) as [g'|] eqn:Htt; [simpl|done].
  intros [= <- <-]. split; [done|].
  apply take_turn_cases in Htt as (g2 & extra & Hg' & Hcases).
  assert (players g' = players g2) as Hsame.
  { destruct extra; [by subst g'|].
    by apply advance_turn_Some in Hg' as [_ ->]. }
  rewrite Hsame.
  destruct Hcases as [(_ & -> & _)|[(_ & _ & -> & _)|(_ & Hmove)]];
    [by left..|].
  destruct Hmove as (ti & g3 & player' & Hsel & Hmv & _ & -> & _).
  apply select_token_for_move_spec in Hsel as [Hlegal _].
  destruct (Hlegal ti eq_refl) as (t & Ht & Hcan).
  right. exists ti, (die inp), player, t, g3.
  repeat (split; [done|]).
  by destruct (record_if_finished_cases g3 (turn g) player') as [->|[_ ->]].
Qed.

Lemma play_reaches_legal (g0 : Game) (s s' : Game * list TurnInput) :
  play_reaches s s' →
  ∀ gr, legal_moves g0 gr → players gr = players s.1 → valid_dice s.2 →
  valid_dice s'.2 ∧ ∃ gr', legal_moves g0 gr' ∧ players gr' = players s'.1.
Proof.
  induction 1 as [s|g g1 ins ins1 s2 _ Hit _ IH]; intros gr Hlegal Hps Hdice.
  { split; [done|]. by exists gr. }
  simpl in *.
  destruct (play_iteration_legal _ _ _ _ Hdice Hit) as [Hdice1 Hstep].
  destruct Hstep as [Hsame|(ti & roll & player & token & g2 & Hpl & Ht & Hroll
                             & Hcan & Hmv & Hsame)].
  { apply (IH gr); [done|congruence|done]. }
  pose proof (move_token_players_only g gr (turn g) ti roll Hps) as Hgr.
  rewrite Hmv in Hgr. simpl in Hgr.
  destruct (move_token gr (turn g) ti roll) as [gr2|] eqn:Hmvr; [|done].
  injection Hgr as Hgr.
  apply (IH gr2); [|congruence|done].
  eapply legal_moves_step; [exact Hlegal| | |exact Hroll|exact Hcan|exact Hmvr].
  - rewrite Hps. exact Hpl.
  - exact Ht.
Qed.

(** X15: with die values 1..6 the turn loop only ever makes legal moves:
    every state it reaches from a constructed game has the tokens of a state
    that legal moves reach, so it satisfies the token invariants of the
    reachable states and no two opposing tokens share an unsafe square. *)
Theorem play_states_are_reachable (n : nat) (cpus : option (list bool))
    (g0 g : Game) (ins0 ins : list TurnInput) :
  Game_init n cpus = Some g0 → valid_dice ins0 →
  play_reaches (g0, ins0) (g, ins) →
  (∃ gr, reachable gr ∧ players gr = players g)
  ∧ game_inv g ∧ no_shared_unsafe g.
Proof.
  intros Hinit Hdice Hreach.
  destruct (play_reaches_legal g0 _ _ Hreach g0 (legal_moves_refl _) eq_refl Hdice)
    as [_ (gr & Hlegal & Hps)]. simpl in Hps.
  assert (reachable gr) as Hr by (by exists n, cpus, g0).
  split; [by exists gr|].
  pose proof (reachable_game_inv _ Hr) as Hinv.
  pose proof (reachable_no_shared_unsafe _ Hr) as Hns.
  unfold game_inv, valid_roster, Forall_tokens, no_shared_unsafe in *.
  by rewrite <- Hps.
Qed.

Lemma play_states_are_reachable_witness :
  game_inv full_game_end.
Proof.
  assert (valid_dice full_game_inputs) as Hdice.
  { repeat constructor; simpl; lia. }
  assert (∃ g ins, play_reaches (full_game_start, full_game_inputs) (g, ins)
                   ∧ players g = players full_game_end) as (g & ins & Hr & Hps).
  { destruct (play_loop 60 full_game_start full_game_inputs) as [g|] eqn:Hloop;
      [|by vm_compute in Hloop].
    destruct (play_loop_reaches _ _ _ _ Hloop) as [_ [ins Hr]].
    exists g, ins. split; [done|].
    vm_compute in Hloop. injection Hloop as <-. reflexivity. }
  destruct (play_states_are_reachable 2 (Some [true; true]) full_game_start g
              full_game_inputs ins eq_refl Hdice Hr) as (_ & Hinv & _).
  unfold game_inv, valid_roster, Forall_tokens in *. by rewrite <- Hps.
Defined.

(** * Ranked players have finished *)

Lemma all_finished_Forall (pl : Player) :
  length (tokens pl) = TOKENS_PER_PLAYER →
  all_finished pl = true ↔ Forall (λ t, finished t = true) (tokens pl).
Proof.
  intros Hlen. unfold all_finished, tokens_finished.
  rewrite bool_decide_eq_true, <- Hlen. split.
  - intros Hcount. apply Forall_forall. intros t Ht.
    destruct (decide (finished t = true)) as [|Hnot]; [done|].
    pose proof (length_filter_lt (λ t, finished t = true) _ _ Ht Hnot). lia.
  - intros Hall. f_equal. clear Hlen.
    induction Hall as [|t ts Ht _ IH]; [done|].
    by rewrite filter_cons_True, IH.
Qed.

Lemma finished_fleet_untouched (g g1 : Game) (pi ti p : nat) (roll : Z)
    (player pl : Player) (token : Token) :
  players g !! pi = Some player → tokens player !! ti = Some token →
  can_move_token player token roll = Some true →
  move_token g pi ti roll = Some g1 →
  players g !! p = Some pl → Forall (λ t, finished t = true) (tokens pl) →
  ∃ pl1, players g1 !! p = Some pl1 ∧ tokens pl1 = tokens pl.
Proof.
  intros Hpl Ht Hlegal Hmv Hp Hall.
  pose proof (move_token_roster_shape _ _ _ _ _ Hmv) as Hshape.
  destruct (lookup_lt_is_Some_2 (players g1) p) as [pl1 Hpl1].
  { apply (f_equal length) in Hshape. unfold roster_shape in Hshape.
    rewrite !length_fmap in Hshape. rewrite Hshape. by eapply lookup_lt_Some. }
  exists pl1. split; [done|].
  destruct (move_token_effect _ _ _ _ _ _ _ Hpl Ht Hmv)
    as (token' & check & Hafter & Hself & Hothers).
  apply list_eq. intros tj.
  assert (get_token g1 p tj = tokens pl1 !! tj) as <-
    by (unfold get_token; by rewrite Hpl1).
  destruct (decide (p = pi ∧ tj = ti)) as [[-> ->]|Hne].
  { exfalso. rewrite Hpl in Hp. injection Hp as <-.
    pose proof (Forall_lookup_1 _ _ _ _ Hall Ht) as Hf. simpl in Hf.
    apply can_move_token_not_finished in Hlegal. congruence. }
  rewrite Hothers by (destruct (decide (p = pi)); [right|left]; tauto).
  rewrite Hp. simpl.
  destruct (tokens pl !! tj) as [t|] eqn:Htj; [simpl|done].
  destruct (_ && _); [|done]. f_equal.
  pose proof (Forall_lookup_1 _ _ _ _ Hall Htj) as Hf. simpl in Hf.
  destruct (capture_token_cases (position token') t)
    as [[-> _]|(_ & Hnf & _)]; [done|congruence].
Qed.

Lemma play_iteration_ranked (g g' : Game) (ins ins' : list TurnInput) :
  full_fleets g →
  (∀ p, p ∈ winner_order g →
     ∃ pl, players g !! p = Some pl
           ∧ Forall (λ t, finished t = true) (tokens pl)) →
  play_iteration g ins = Some (g', ins') →
  ∀ p, p ∈ winner_order g' →
    ∃ pl, players g' !! p = Some pl
          ∧ Forall (λ t, finished t = true) (tokens pl).
Proof.
  intros Hfull Hranked. unfold play_iteration.
  destruct (players g !! turn g) as [player|] eqn:Hpl; [simpl|done].
  destruct (all_finished player) eqn:Hall.
  { destruct (advance_turn _) as [g2|] eqn:Hadv; [simpl|done].
    intros [= <- <-]. apply advance_turn_Some in Hadv as [_ ->]. simpl.
    case_decide; simpl; [done|].
    intros p [Hp|Hp%list_elem_of_singleton]%elem_of_app; [by apply Hranked|].
    subst p.
    exists player. split; [done|]. apply all_finished_Forall; [|done].
    exact (Forall_lookup_1 _ _ _ _ Hfull Hpl). }
  destruct ins as [|inp ins0]; [done|].
  destruct (take_turn g player inp) as [g1|] eqn:Htt; [simpl|done].
  intros [= <- <-].
  apply take_turn_cases in Htt as (g2 & extra & Hg' & Hcases).
  assert (players g1 = players g2 ∧ winner_order g1 = winner_order g2)
    as [Hps Hwo].
  { destruct extra; [by subst g1|].
    by apply advance_turn_Some in Hg' as [_ ->]. }
  rewrite Hps, Hwo. clear Hps Hwo Hg' g1.
  destruct Hcases as [(_ & -> & _)|[(_ & _ & -> & _)|(_ & Hmove)]];
    [done..|].
  destruct Hmove as (ti & g1 & player' & Hsel & Hmv & Hpl' & -> & _).
  apply select_token_for_move_spec in Hsel as [Hlegal _].
  destruct (Hlegal ti eq_refl) as (t & Ht & Hcan).
  pose proof (move_token_roster_shape _ _ _ _ _ Hmv) as Hshape.
  pose proof (move_token_roster _ _ _ _ _ Hmv) as (_ & _ & _ & Hwo1).
  assert (∀ p, p ∈ winner_order g1 →
            ∃ pl, players g1 !! p = Some pl
                  ∧ Forall (λ t, finished t = true) (tokens pl)) as Hranked1.
  { intros p Hp. rewrite Hwo1 in Hp.
    destruct (Hranked p Hp) as (pl & Hplp & Hallp).
    destruct (finished_fleet_untouched _ _ _ _ _ _ _ _ _ Hpl Ht Hcan Hmv Hplp Hallp)
      as (pl1 & Hpl1 & Htok).
    exists pl1. split; [done|]. by rewrite Htok. }
  unfold record_if_finished.
  destruct (all_finished player') eqn:Hall'; simpl; [|done].
  case_bool_decide; simpl; [|done].
  intros p [Hp|Hp%list_elem_of_singleton]%elem_of_app; [by apply Hranked1|].
  subst p.
  exists player'. split; [done|]. apply all_finished_Forall; [|done].
  destruct (roster_shape_lookup g g1 (turn g) player' Hshape Hpl')
    as (pl0 & Hpl0 & _ & _ & Hlen).
  rewrite <- Hlen. exact (Forall_lookup_1 _ _ _ _ Hfull Hpl0).
Qed.

(** X16: while the turn loop runs, a player is in the ranking only if all
    four of its tokens are finished: nobody is ranked early, and a ranked
    player's tokens are never moved or captured afterwards. *)
Theorem ranked_players_have_finished (n : nat) (cpus : option (list bool))
    (g0 g : Game) (ins0 ins : list TurnInput) :
  Game_init n cpus = Some g0 →
  play_reaches (g0, ins0) (g, ins) →
  ∀ p, p ∈ winner_order g →
    ∃ pl, players g !! p = Some pl ∧ all_finished pl = true
          ∧ Forall (λ t, finished t = true) (tokens pl).
Proof.
  intros Hinit Hreach.
  assert (∀ s s', play_reaches s s' →
            roster_shape s.1 = roster_shape g0 →
            (∀ p, p ∈ winner_order s.1 →
               ∃ pl, players s.1 !! p = Some pl
                     ∧ Forall (λ t, finished t = true) (tokens pl)) →
            ∀ p, p ∈ winner_order s'.1 →
              ∃ pl, players s'.1 !! p = Some pl
                    ∧ Forall (λ t, finished t = true) (tokens pl)) as Hgen.
  { induction 1 as [s|g1 g2 ins1 ins2 s2 _ Hit _ IH]; [done|].
    simpl in *. intros Hshape Hranked. apply IH.
    - rewrite <- Hshape. by eapply play_iteration_roster_shape.
    - eapply play_iteration_ranked; [|done..].
      by destruct (Game_init_roster _ _ _ g1 Hinit Hshape). }
  intros p Hp.
  destruct (Hgen _ _ Hreach eq_refl) with (p := p) as (pl & Hpl & Hall);
    [|done|].
  { simpl. apply Game_init_spec in Hinit as (_ & _ & _ & -> & _).
    by intros q ?%elem_of_nil. }
  simpl in *. exists pl. split; [done|]. split.
  - apply all_finished_Forall; [|done].
    destruct (Game_init_roster _ _ _ g Hinit (play_reaches_roster_shape _ _ Hreach))
      as [_ Hfull].
    exact (Forall_lookup_1 _ _ _ _ Hfull Hpl).
  - exact Hall.
Qed.

Lemma ranked_players_have_finished_witness :
  ∃ pl, players full_game_loop_end !! 0%nat = Some pl
        ∧ all_finished pl = true.
Proof.
  assert (play_loop 60 full_game_start full_game_inputs
          = Some full_game_loop_end) as Hloop by (vm_compute; reflexivity).
  destruct (play_loop_reaches _ _ _ _ Hloop) as [_ [ins Hr]].
  destruct (ranked_players_have_finished 2 (Some [true; true]) full_game_start
              full_game_loop_end full_game_inputs ins eq_refl Hr 0%nat)
    as (pl & Hpl & Hall & _).
  - vm_compute. left.
  - exists pl. split; [exact Hpl|exact Hall].
Defined.

(** * Without a six *)

Lemma fresh_player_cannot_move (i : nat) (c : bool) (roll : Z) :
  roll ≠ 6 →
  all_finished (Player_init i c) = false
  ∧ any_moves_available (Player_init i c) roll = Some false.
Proof.
  intros Hroll. split; [reflexivity|].
  unfold any_moves_available, Player_init. cbn [tokens]. simpl.
  unfold can_move_token. simpl. by rewrite !bool_decide_false by done.
Qed.

(** X17: tokens leave the yard on a 6 and on nothing else.  If no roll of
    the input is a 6, the turn loop of a constructed game never changes a
    token and never ranks a player, and [play] does not return, whatever
    the number of iterations allowed. *)
Theorem no_six_no_progress (n : nat) (cpus : option (list bool)) (g0 : Game)
    (ins0 : list TurnInput) :
  Game_init n cpus = Some g0 →
  Forall (λ inp, die inp ≠ 6) ins0 →
  (∀ g ins, play_reaches (g0, ins0) (g, ins) →
     players g = players g0 ∧ winner_order g = [])
  ∧ ∀ fuel, play fuel g0 ins0 = None.
Proof.
  intros Hinit Hdice.
  pose proof (Game_init_spec _ _ _ Hinit) as (Hn & Hnum & _ & Hwo0 & _ & Hps).
  set (J := λ (g : Game) (ins : list TurnInput),
         players g = players g0 ∧ winner_order g = []
         ∧ num_players g = n ∧ Forall (λ inp, die inp ≠ 6) ins).
  assert (∀ g ins g' ins', J g ins →
            play_iteration g ins = Some (g', ins') → J g' ins') as Hstep.
  { intros g ins g' ins' (Hpl & Hwo & Hng & Hd). unfold play_iteration.
    destruct (players g !! turn g) as [player|] eqn:Hplayer; [simpl|done].
    rewrite Hpl in Hplayer. destruct (Hps _ _ Hplayer) as [_ [c ->]].
    destruct ins as [|inp ins1].
    { by rewrite (proj1 (fresh_player_cannot_move (turn g) c 0 ltac:(lia))). }
    apply Forall_cons in Hd as [Hroll Hd].
    destruct (fresh_player_cannot_move (turn g) c (die inp) Hroll) as [-> Hno].
    destruct (take_turn g _ inp) as [g1|] eqn:Htt; [simpl|done].
    intros [= <- <-].
    apply take_turn_cases in Htt as (g2 & extra & Hg' & Hcases).
    destruct Hcases as [(_ & -> & ->)|[(Hav & _)|(Hav & _)]];
      [|congruence..].
    rewrite bool_decide_false in Hg' by done.
    apply advance_turn_Some in Hg' as [_ ->]. by repeat split. }
  assert (J g0 ins0) as HJ0 by (by repeat split).
  split.
  - assert (∀ s s', play_reaches s s' → J s.1 s.2 → J s'.1 s'.2) as Hall.
    { induction 1 as [s|g g1 ins ins1 s2 _ Hit _ IH]; [done|].
      intros HJ. apply IH. by eapply Hstep. }
    intros g ins Hr. by destruct (Hall _ _ Hr HJ0) as (Hpl & Hwo & _).
  - intros fuel. unfold play.
    assert (∀ g ins, J g ins → play_loop fuel g ins = None) as Hloop.
    { induction fuel as [|fuel IH]; intros g ins HJ; simpl;
        pose proof HJ as (_ & Hwo & Hng & _);
        (assert (loop_cond g = true) as ->;
           [apply loop_cond_true; rewrite Hwo, Hng; simpl; lia|]); [done|].
      destruct (play_iteration g ins) as [[g1 ins1]|] eqn:Hit; [simpl|done].
      apply IH. by eapply Hstep. }
    by rewrite Hloop.
Qed.

Lemma no_six_no_progress_witness :
  play 1000 human_start ((λ r, mkInput r [EPass]) <$> [1; 5; 3; 2; 4; 1]) = None.
Proof.
  apply (no_six_no_progress 2 None human_start); [reflexivity|].
  repeat constructor; simpl; lia.
Defined.

(** * Setup *)

Lemma prompt_count_range (lines rest : list Line) (n : nat) :
  prompt_count lines = Some (n, rest) →
  (2 ≤ n ≤ 4)%nat ∧ rest `suffix_of` lines.
Proof.
  induction lines as [|l lines IH]; simpl; [done|].
  assert (prompt_count lines = Some (n, rest) →
          (2 ≤ n ≤ 4)%nat ∧ rest `suffix_of` l :: lines) as IH'.
  { intros H. destruct (IH H) as [Hn Hs]. split; [done|]. by apply suffix_cons_r. }
  destruct (as_count l) as [|v| |]; [| |done|done].
  - intros [= <- <-]. split; [lia|]. by apply suffix_cons_r.
  - case_decide; [|done]. intros [= <- <-].
    split; [done|]. by apply suffix_cons_r.
Qed.

Lemma prompt_flag_suffix (lines rest : list Line) (c : bool) :
  prompt_flag lines = Some (c, rest) → rest `suffix_of` lines.
Proof.
  induction lines as [|l lines IH]; simpl; [done|].
  destruct (as_flag l); try (intros [= <- <-]; by apply suffix_cons_r).
  intros H. by apply suffix_cons_r, IH.
Qed.

Lemma prompt_flags_length (k : nat) (acc cpus : list bool)
    (lines rest : list Line) :
  prompt_flags k acc lines = Some (cpus, rest) →
  length cpus = (length acc + k)%nat ∧ acc `prefix_of` cpus
  ∧ rest `suffix_of` lines.
Proof.
  revert acc lines. induction k as [|k IH]; intros acc lines; simpl.
  { intros [= <- <-]. split; [lia|]. done. }
  destruct (prompt_flag lines) as [[c rest1]|] eqn:Hflag; [simpl|done].
  intros Hrec. destruct (IH _ _ Hrec) as (Hlen & Hpre & Hsuf).
  rewrite length_app in Hlen. simpl in Hlen. split; [lia|]. split.
  - etransitivity; [|exact Hpre]. by apply prefix_app_r.
  - etransitivity; [exact Hsuf|]. by eapply prompt_flag_suffix.
Qed.

(** X18: whatever is typed, a setup that returns hands the constructor what
    it accepts: between 2 and 4 players and exactly one flag per player, so
    [Game(num_players, cpu_players)] neither fails its assertion nor runs
    out of flags, and the roster carries those flags; the lines left over
    are a tail of the lines typed. *)
Theorem prompt_setup_constructs_game (lines rest : list Line) (n : nat)
    (cpus : list bool) :
  prompt_setup lines = Some (n, cpus, rest) →
  (2 ≤ n ≤ 4)%nat ∧ length cpus = n ∧ rest `suffix_of` lines
  ∧ ∃ g, Game_init n (Some cpus) = Some g
      ∧ is_cpu <$> players g = cpus.
Proof.
  unfold prompt_setup.
  destruct (prompt_count lines) as [[k rest1]|] eqn:Hcount; [simpl|done].
  destruct (prompt_flags k [] rest1) as [[cs rest2]|] eqn:Hflags; [simpl|done].
  intros [= <- <- <-].
  apply prompt_count_range in Hcount as [Hk Hs1].
  apply prompt_flags_length in Hflags as (Hlen & _ & Hs2). simpl in Hlen.
  split; [done|]. split; [done|]. split; [by etransitivity|].
  destruct (Game_init k (Some cs)) as [g|] eqn:Hg.
  - exists g. split; [done|].
    pose proof (proj2 (Game_init_cases k (Some cs)) g Hg)
      as (_ & _ & _ & Hpl & Hps).
    apply list_eq. intros i. rewrite list_lookup_fmap.
    destruct (decide (i < k)%nat) as [Hi|Hi].
    + destruct (Hps i Hi) as (c & Hc & ->). simpl in Hc. by rewrite Hc.
    + rewrite !lookup_ge_None_2 by lia. done.
  - apply (proj1 (Game_init_cases k (Some cs))) in Hg
      as [Hbad|(l & [= <-] & Hshort)]; [done|lia].
Qed.

Lemma prompt_setup_constructs_game_witness :
  ∃ g, Game_init 3 (Some [true; false; false]) = Some g
       ∧ is_cpu <$> players g = [true; false; false].
Proof.
  destruct (prompt_setup_constructs_game
              [mkLine CountOther FlagOther; mkLine (CountDigits 7) FlagOther;
               mkLine (CountDigits 3) FlagOther; mkLine CountOther FlagYes;
               mkLine CountOther FlagOther; mkLine CountBlank FlagBlank;
               mkLine CountOther FlagNo]
              [] 3 [true; false; false] eq_refl) as (_ & _ & _ & Hg).
  exact Hg.
Defined.

(** * One iteration and the cursor *)

(** X19: one iteration of the turn loop.  A player at the cursor whose
    fleet is finished does not roll: no input is read, no token changes,
    the player is in the ranking afterwards and the cursor moves on.  Any
    other player reads one roll; a roll other than 6 moves the cursor to
    the next place modulo the number of players, and a 6 leaves it where it
    is when no move was possible or when a token was moved. *)
Theorem play_iteration_cursor (g g' : Game) (ins ins' : list TurnInput)
    (player : Player) :
  players g !! turn g = Some player →
  play_iteration g ins = Some (g', ins') →
  num_players g' = num_players g
  ∧ (all_finished player = true →
       ins' = ins ∧ players g' = players g
       ∧ turn g' = ((turn g + 1) `mod` num_players g)%nat
       ∧ turn g ∈ winner_order g')
  ∧ (all_finished player = false →
       ∃ inp, ins = inp :: ins'
         ∧ (die inp ≠ 6 →
              turn g' = ((turn g + 1) `mod` num_players g)%nat)
         ∧ (die inp = 6 →
              any_moves_available player 6 = Some false
              ∨ (∃ ti, select_token_for_move g player 6 (typed inp)
                         = Some (Some ti)) →
              turn g' = turn g)).
Proof.
  intros Hpl. unfold play_iteration. rewrite Hpl. simpl.
  destruct (all_finished player).
  - destruct (advance_turn _) as [g2|] eqn:Hadv; [simpl|done].
    intros [= <- <-]. apply advance_turn_Some in Hadv as [_ ->]. simpl.
    destruct (decide (turn g ∈ winner_order g)) as [Hin|Hout]; simpl.
    + split; [done|]. split; [|done]. by intros _.
    + split; [done|]. split; [|done]. intros _.
      repeat (split; [done|]). apply elem_of_app. right. by left.
  - destruct ins as [|inp ins0]; [done|].
    destruct (take_turn g player inp) as [g1|] eqn:Htt; [simpl|done].
    intros [= <- <-].
    apply take_turn_cursor in Htt as (Hn & Hadv & Hstay & _).
    split; [done|]. split; [done|]. intros _. by exists inp.
Qed.

Lemma play_iteration_cursor_witness :
  ∃ g', play_iteration human_start [mkInput 3 []] = Some (g', [])
        ∧ turn g' = 1%nat.
Proof.
  destruct (play_iteration human_start [mkInput 3 []]) as [[g' ins']|] eqn:Hit;
    [|by vm_compute in Hit].
  destruct (play_iteration_cursor human_start g' [mkInput 3 []] ins'
              (Player_init 0 false) eq_refl Hit) as (_ & _ & Hroll).
  destruct (Hroll eq_refl) as (inp & Hins & Hadv & _).
  injection Hins as <- <-. exists g'. split; [done|].
  apply Hadv. simpl. lia.
Defined.

(** * Finishing from inside the stretch *)

(** X20: step 1 of the automated policy.  When a legal token of an
    automated player stands in the stretch exactly [roll] squares before
    the final index, the policy returns a token of that kind, whatever
    captures are on offer, and moving the returned token finishes it. *)
Theorem cpu_finishes_from_stretch (g : Game) (pi i : nat) (roll : Z)
    (player : Player) (t : Token) (entries : list Entry) :
  players g !! pi = Some player → (idx player < 4)%nat →
  is_cpu player = true →
  tokens player !! i = Some t →
  can_move_token player t roll = Some true →
  position t >= OUTER_TRACK →
  position t - OUTER_TRACK + roll = HOME_STRETCH - 1 →
  ∃ j t' g' t'',
    select_token_for_move g player roll entries = Some (Some j)
    ∧ tokens player !! j = Some t'
    ∧ position t' = position t
    ∧ move_token g pi j roll = Some g'
    ∧ get_token g' pi j = Some t''
    ∧ finished t'' = true ∧ position t'' = final_index.
Proof.
  intros Hpl Hp Hcpu Ht Hlegal Hpos Hexact.
  destruct (movable_tokens_total player roll Hp) as [movable Hmov].
  assert ((i, t) ∈ movable) as Hin by (by apply (movable_tokens_spec _ _ _ Hmov)).
  assert (finishes_in_stretch roll t = true) as Hfin.
  { unfold finishes_in_stretch. by rewrite !bool_decide_true. }
  destruct (cpu_select_stretch_finisher g player roll movable i t Hin Hfin)
    as (j & t' & Hsel & Hin' & Hfin').
  apply (movable_tokens_spec _ _ _ Hmov) in Hin' as [Ht' _].
  apply andb_true_iff in Hfin'
    as [Hpos'%bool_decide_eq_true Hexact'%bool_decide_eq_true].
  unfold OUTER_TRACK, HOME_STRETCH in *.
  exists j, t'. eexists _, _. split.
  { unfold select_token_for_move. rewrite Hmov. simpl.
    destruct movable as [|x movable]; [by apply elem_of_nil in Hin|].
    by rewrite Hcpu. }
  split; [done|]. split; [lia|]. split.
  { unfold move_token, is_in_yard. rewrite Hpl. simpl. rewrite Ht'. simpl.
    unfold OUTER_TRACK, HOME_STRETCH.
    rewrite bool_decide_false by lia.
    rewrite (decide_False (P := 0 <= _ < _)) by lia.
    rewrite decide_True by lia. by rewrite decide_True by lia. }
  split; [by eapply get_token_store_eq|].
  split; [done|]. simpl. unfold final_index, OUTER_TRACK, HOME_STRETCH. lia.
Qed.

Lemma cpu_finishes_from_stretch_witness :
  ∃ j, select_token_for_move
         (mkGame 2 [mkPlayer 0 [example_token 0 0 54; example_token 0 1 1;
                                example_token 0 2 (-1); example_token 0 3 (-1)]
                      true; capture_opponent] 0 [])
         (mkPlayer 0 [example_token 0 0 54; example_token 0 1 1;
                      example_token 0 2 (-1); example_token 0 3 (-1)] true)
         3 [] = Some (Some j).
Proof.
  assert (0 < 4)%nat as Hp by lia.
  assert (54 >= OUTER_TRACK) as Hpos by (vm_compute; congruence).
  destruct (cpu_finishes_from_stretch
              (mkGame 2 [mkPlayer 0 [example_token 0 0 54; example_token 0 1 1;
                                     example_token 0 2 (-1); example_token 0 3 (-1)]
                           true; capture_opponent] 0 [])
              0 0 3 _ (example_token 0 0 54) [] eq_refl Hp eq_refl eq_refl
              eq_refl Hpos eq_refl) as (j & _ & _ & _ & Hsel & _).
  by exists j.
Defined.
